(** * Zanoo landing page: the state-bearing behaviours of [ZanooLanding]

  A shallow embedding of the React components of the landing page that own
  state: the screenshot sliders, the timed rotations (demo tabs, hero
  phrases, quote carousel), the lead-capture form with its revert timer,
  the animated counter, the circular gauge, the photo tile with its
  fallback and the theme toggle.

  JavaScript integers (indices, timer ids, milliseconds) are [Z]; the
  remainder operator [%] is [Z.rem] (truncated, sign of the dividend);
  [undefined] and [null] are [None]. *)

From Stdlib Require Import ZArith QArith Qround Qpower Qabs Floats List Lia Bool Ascii String.
From stdpp Require Import gmap strings list fin_maps.

Local Open Scope Z_scope.

(** ** JavaScript helpers *)

Module Js.

(** [a % b] on integers. *)
Definition rem (a b : Z) : Z := Z.rem a b.

(** [arr.length]. *)
Definition length {A} (arr : list A) : Z := Z.of_nat (List.length arr).

(** [arr[i]]: [undefined] out of range. *)
Definition get {A} (arr : list A) (i : Z) : option A :=
  if i <? 0 then None else arr !! Z.to_nat i.

(** [arr.indexOf(x)]: position of the first element equal to [x], or -1. *)
Fixpoint indexOf_from (arr : list string) (x : option string) (i : Z) : Z :=
  match arr with
  | [] => -1
  | y :: rest =>
      if decide (x = Some y) then i else indexOf_from rest x (i + 1)
  end.

Definition indexOf (arr : list string) (x : option string) : Z :=
  indexOf_from arr x 0.

End Js.

(** ** Screenshot sliders (hero shots and app shots) *)

Module Slider.

Inductive shot_mode := ModeList | ModeDetail | ModeMetrics.

Record shot := Shot {
  shot_id : string;
  shot_label : string;
  shot_src : option string;
  shot_mode_of : option shot_mode
}.

Definition HERO_SHOTS : list shot :=
  [ Shot "inicio" "Inicio (Paciente)" (Some "/shots/inicio-paciente.png") None;
    Shot "medicos" "Mis médicos" (Some "/shots/mis-medicos.png") None ].

Definition APP_SHOTS : list shot :=
  [ Shot "inicio" "Inicio (Paciente)" (Some "/shots/inicio-paciente.png") (Some ModeDetail);
    Shot "turnos" "Turnos (Recepción)" (Some "/shots/turnos-recepcion.png") (Some ModeList);
    Shot "metricas" "Métricas (Dirección)" (Some "/shots/metricas-direccion.png") (Some ModeMetrics) ].

(** The updater of the previous button:
    [(p) => (p === 0 ? SHOTS.length - 1 : p - 1)]. *)
Definition prev_update (len p : Z) : Z :=
  if p =? 0 then len - 1 else p - 1.

(** The updater of the next button: [(p) => (p + 1) % SHOTS.length]. *)
Definition next_update (len p : Z) : Z := Js.rem (p + 1) len.

Definition hero_prev : Z -> Z := prev_update (Js.length HERO_SHOTS).
Definition hero_next : Z -> Z := next_update (Js.length HERO_SHOTS).
Definition shot_prev : Z -> Z := prev_update (Js.length APP_SHOTS).
Definition shot_next : Z -> Z := next_update (Js.length APP_SHOTS).

End Slider.

(** ** The page component [ZanooLanding] with its [QuoteCarousel] child

  The component state ([useState] cells and the [formTimer] ref), the
  browser's timer table ([setInterval], [setTimeout], [clearInterval],
  [clearTimeout]) and a clock in milliseconds.  Event handlers and timer
  callbacks are state transformers. *)

Module Landing.

(** The tab labels, as in [const tabs = ["Recepción", "Consultorio",
    "Dirección"] as const]. *)
Definition tabs : list string := ["Recepción"; "Consultorio"; "Dirección"].

Definition heroPhrases : list string :=
  ["atender mejor"; "cuidar el tiempo"; "cuidar a las personas";
   "hacer más justo el acceso"].

(** The quotes of [QuoteCarousel]. *)
Record quote := Quote { highlight : string; text : string }.

Definition quotes : list quote :=
  [ Quote "19M de argentinos"
      "“Más de 19 millones de argentinos se atienden exclusivamente en salitas y CAPS. Es casi 1 de cada 2 personas que dependen del primer nivel público.”";
    Quote "8.000+ centros de salud"
      "“En Argentina existen más de 8.000 salitas y centros de atención primaria. La mayoría funciona con papel, planillas o WhatsApp.”";
    Quote "45% abre todo el día"
      "“Solo el 45% de los centros de atención primaria abre todos los días. El resto funciona con horarios limitados y desorganización estructural.”" ].

(** The functions handed to [setInterval] and [setTimeout]. *)
Inductive callback :=
| QuoteTick      (* setIndex((prev) => (prev + 1) % quotes.length) *)
| DemoTabTick    (* setDemoTab(prev => tabs[(tabs.indexOf(prev) + 1) % tabs.length]) *)
| HeroTextTick   (* setHeroTextIndex((prev) => (prev + 1) % heroPhrases.length) *)
| FormRevert.    (* () => setFormSent(false) *)

Global Instance callback_eq_dec : EqDecision callback.
Proof. solve_decision. Defined.

(** An entry of the browser's timer table.  [timer_repeat] is [Some p] for
    an interval of period [p] and [None] for a one-shot timeout. *)
Record timer := Timer {
  timer_id : Z;
  timer_due : Z;
  timer_repeat : option Z;
  timer_cb : callback
}.

Record page := Page {
  demoTab : option string;      (* useState("Recepción"); None is undefined *)
  shotIndex : Z;                (* useState(0) *)
  heroIndex : Z;                (* useState(0) *)
  heroTextIndex : Z;            (* useState(0) *)
  quoteIndex : Z;               (* QuoteCarousel: useState(0) *)
  formSent : bool;              (* useState(false) *)
  formTimer : option Z;         (* useRef<number | null>(null) *)
  quoteInterval : option Z;     (* [timer] captured by the carousel's cleanup *)
  demoInterval : option Z;      (* [interval] captured by the demo-tab cleanup *)
  heroInterval : option Z;      (* [interval] captured by the hero-text cleanup *)
  timers : list timer;          (* pending timers, in creation order *)
  nextTimerId : Z;              (* ids handed out by the browser *)
  now : Z;                      (* clock, in ms *)
  fired : list (Z * callback)   (* trace: the callbacks run so far, newest first *)
}.

(** First render, before any effect has run. *)
Definition initial_page : page :=
  {| demoTab := Some "Recepción"; shotIndex := 0; heroIndex := 0;
     heroTextIndex := 0; quoteIndex := 0; formSent := false;
     formTimer := None; quoteInterval := None; demoInterval := None;
     heroInterval := None; timers := []; nextTimerId := 1; now := 0;
     fired := [] |}.

(** *** State setters *)

Definition setDemoTab (v : option string) (s : page) : page :=
  {| demoTab := v; shotIndex := shotIndex s; heroIndex := heroIndex s;
     heroTextIndex := heroTextIndex s; quoteIndex := quoteIndex s;
     formSent := formSent s; formTimer := formTimer s;
     quoteInterval := quoteInterval s; demoInterval := demoInterval s;
     heroInterval := heroInterval s; timers := timers s;
     nextTimerId := nextTimerId s; now := now s; fired := fired s |}.

Definition setShotIndex (v : Z) (s : page) : page :=
  {| demoTab := demoTab s; shotIndex := v; heroIndex := heroIndex s;
     heroTextIndex := heroTextIndex s; quoteIndex := quoteIndex s;
     formSent := formSent s; formTimer := formTimer s;
     quoteInterval := quoteInterval s; demoInterval := demoInterval s;
     heroInterval := heroInterval s; timers := timers s;
     nextTimerId := nextTimerId s; now := now s; fired := fired s |}.

Definition setHeroIndex (v : Z) (s : page) : page :=
  {| demoTab := demoTab s; shotIndex := shotIndex s; heroIndex := v;
     heroTextIndex := heroTextIndex s; quoteIndex := quoteIndex s;
     formSent := formSent s; formTimer := formTimer s;
     quoteInterval := quoteInterval s; demoInterval := demoInterval s;
     heroInterval := heroInterval s; timers := timers s;
     nextTimerId := nextTimerId s; now := now s; fired := fired s |}.

Definition setHeroTextIndex (v : Z) (s : page) : page :=
  {| demoTab := demoTab s; shotIndex := shotIndex s; heroIndex := heroIndex s;
     heroTextIndex := v; quoteIndex := quoteIndex s;
     formSent := formSent s; formTimer := formTimer s;
     quoteInterval := quoteInterval s; demoInterval := demoInterval s;
     heroInterval := heroInterval s; timers := timers s;
     nextTimerId := nextTimerId s; now := now s; fired := fired s |}.

Definition setIndex (v : Z) (s : page) : page :=
  {| demoTab := demoTab s; shotIndex := shotIndex s; heroIndex := heroIndex s;
     heroTextIndex := heroTextIndex s; quoteIndex := v;
     formSent := formSent s; formTimer := formTimer s;
     quoteInterval := quoteInterval s; demoInterval := demoInterval s;
     heroInterval := heroInterval s; timers := timers s;
     nextTimerId := nextTimerId s; now := now s; fired := fired s |}.

Definition setFormSent (v : bool) (s : page) : page :=
  {| demoTab := demoTab s; shotIndex := shotIndex s; heroIndex := heroIndex s;
     heroTextIndex := heroTextIndex s; quoteIndex := quoteIndex s;
     formSent := v; formTimer := formTimer s;
     quoteInterval := quoteInterval s; demoInterval := demoInterval s;
     heroInterval := heroInterval s; timers := timers s;
     nextTimerId := nextTimerId s; now := now s; fired := fired s |}.

Definition setFormTimer (v : option Z) (s : page) : page :=
  {| demoTab := demoTab s; shotIndex := shotIndex s; heroIndex := heroIndex s;
     heroTextIndex := heroTextIndex s; quoteIndex := quoteIndex s;
     formSent := formSent s; formTimer := v;
     quoteInterval := quoteInterval s; demoInterval := demoInterval s;
     heroInterval := heroInterval s; timers := timers s;
     nextTimerId := nextTimerId s; now := now s; fired := fired s |}.

Definition setIntervalRefs (q d h : option Z) (s : page) : page :=
  {| demoTab := demoTab s; shotIndex := shotIndex s; heroIndex := heroIndex s;
     heroTextIndex := heroTextIndex s; quoteIndex := quoteIndex s;
     formSent := formSent s; formTimer := formTimer s;
     quoteInterval := q; demoInterval := d; heroInterval := h;
     timers := timers s;
     nextTimerId := nextTimerId s; now := now s; fired := fired s |}.

Definition setTimers (ts : list timer) (next : Z) (s : page) : page :=
  {| demoTab := demoTab s; shotIndex := shotIndex s; heroIndex := heroIndex s;
     heroTextIndex := heroTextIndex s; quoteIndex := quoteIndex s;
     formSent := formSent s; formTimer := formTimer s;
     quoteInterval := quoteInterval s; demoInterval := demoInterval s;
     heroInterval := heroInterval s; timers := ts;
     nextTimerId := next; now := now s; fired := fired s |}.

Definition setNow (t : Z) (s : page) : page :=
  {| demoTab := demoTab s; shotIndex := shotIndex s; heroIndex := heroIndex s;
     heroTextIndex := heroTextIndex s; quoteIndex := quoteIndex s;
     formSent := formSent s; formTimer := formTimer s;
     quoteInterval := quoteInterval s; demoInterval := demoInterval s;
     heroInterval := heroInterval s; timers := timers s;
     nextTimerId := nextTimerId s; now := t; fired := fired s |}.

Definition logFired (cb : callback) (s : page) : page :=
  {| demoTab := demoTab s; shotIndex := shotIndex s; heroIndex := heroIndex s;
     heroTextIndex := heroTextIndex s; quoteIndex := quoteIndex s;
     formSent := formSent s; formTimer := formTimer s;
     quoteInterval := quoteInterval s; demoInterval := demoInterval s;
     heroInterval := heroInterval s; timers := timers s;
     nextTimerId := nextTimerId s; now := now s;
     fired := (now s, cb) :: fired s |}.

(** *** The browser's timer functions *)

(** [window.setTimeout(cb, delay)]: returns the new id. *)
Definition setTimeout (cb : callback) (delay : Z) (s : page) : Z * page :=
  let id := nextTimerId s in
  (id, setTimers (timers s ++ [Timer id (now s + delay) None cb]) (id + 1) s).

(** [setInterval(cb, period)]: returns the new id. *)
Definition setInterval (cb : callback) (period : Z) (s : page) : Z * page :=
  let id := nextTimerId s in
  (id, setTimers (timers s ++ [Timer id (now s + period) (Some period) cb])
                 (id + 1) s).

(** [clearTimeout(id)] and [clearInterval(id)] share one id space. *)
Definition clearTimer (id : Z) (s : page) : page :=
  setTimers (List.filter (fun tm => negb (timer_id tm =? id)) (timers s))
            (nextTimerId s) s.

(** *** Timer callbacks *)

Definition run_callback (cb : callback) (s : page) : page :=
  match cb with
  | QuoteTick =>
      setIndex (Js.rem (quoteIndex s + 1) (Js.length quotes)) s
  | DemoTabTick =>
      let currentIndex := Js.indexOf tabs (demoTab s) in
      let nextIndex := Js.rem (currentIndex + 1) (Js.length tabs) in
      setDemoTab (Js.get tabs nextIndex) s
  | HeroTextTick =>
      setHeroTextIndex (Js.rem (heroTextIndex s + 1) (Js.length heroPhrases)) s
  | FormRevert => setFormSent false s
  end.

(** *** The clock *)

Definition is_due (t : Z) (tm : timer) : bool := timer_due tm <=? t.

(** What is left of a timer once the clock reads [t]: a due timeout is
    dropped, a due interval is re-armed one period later. *)
Definition rearm (t : Z) (tm : timer) : option timer :=
  if is_due t tm then
    match timer_repeat tm with
    | Some p => Some (Timer (timer_id tm) (timer_due tm + p) (Some p) (timer_cb tm))
    | None => None
    end
  else Some tm.

Definition fire (s : page) (tm : timer) : page :=
  run_callback (timer_cb tm) (logFired (timer_cb tm) s).

(** One millisecond passes: the due timers run in creation order. *)
Definition tick_ms (s : page) : page :=
  let t := now s + 1 in
  let due := List.filter (is_due t) (timers s) in
  let s' := setNow t (setTimers (omap (rearm t) (timers s)) (nextTimerId s) s) in
  fold_left fire due s'.

(** [ms] milliseconds pass with no interaction. *)
Fixpoint elapse (ms : nat) (s : page) : page :=
  match ms with
  | O => s
  | S k => elapse k (tick_ms s)
  end.

(** [ms] milliseconds pass, [ms] an integer. *)
Definition wait (ms : Z) (s : page) : page := elapse (Z.to_nat ms) s.

(** *** The lead-capture form *)

Inductive control_kind := TextInput | NumberInput | EmailInput | TextArea.

(** A named control of the form: its [name], whether it carries
    [required], and its kind. *)
Record control := Control {
  control_name : string;
  control_required : bool;
  control_kind_of : control_kind
}.

(** The controls of the form, in document order. *)
Definition form_controls : list control :=
  [ Control "centro" true TextInput;
    Control "provincia" true TextInput;
    Control "localidad" true TextInput;
    Control "direccion" false TextInput;
    Control "pacientes" true NumberInput;
    Control "turnos" true NumberInput;
    Control "contacto" true TextInput;
    Control "whatsapp" true TextInput;
    Control "email" true EmailInput;
    Control "comentarios" false TextArea ].

(** What the user typed: a value per control name, empty when absent. *)
Definition control_value (typed : gmap string string) (c : control) : string :=
  default "" (typed !! control_name c).

(** [new FormData(form).entries()]: one entry per named control, in
    document order. *)
Definition formData_entries (typed : gmap string string)
  : list (string * string) :=
  List.map (fun c => (control_name c, control_value typed c)) form_controls.

(** [Object.fromEntries(entries)]: a later entry overwrites an earlier one
    with the same key. *)
Definition fromEntries (entries : list (string * string))
  : gmap string string :=
  fold_left (fun o kv => <[fst kv := snd kv]> o) entries ∅.

(** The browser's check before it dispatches [submit]: every [required]
    control has a value.  (The further checks of [type="number"] and
    [type="email"] only reject more inputs.) *)
Definition required_present (typed : gmap string string) : bool :=
  forallb (fun c => negb (control_required c)
                    || negb (String.eqb (control_value typed c) ""))
          form_controls.

Record submit_event := SubmitEvent {
  currentTarget : gmap string string;   (* the form, by its control values *)
  defaultPrevented : bool
}.

Definition preventDefault (e : submit_event) : submit_event :=
  {| currentTarget := currentTarget e; defaultPrevented := true |}.

(** The [onSubmit] handler of the form.  It returns the event, the record
    [data] it gathered, and the new page.  The [subject] and [body] strings
    it builds from [data] are used by nothing. *)
Definition onSubmit (e : submit_event) (s : page)
  : submit_event * gmap string string * page :=
  let e1 := preventDefault e in
  let data := fromEntries (formData_entries (currentTarget e1)) in
  let s1 := setFormSent true s in
  let '(id, s2) := setTimeout FormRevert 12000 s1 in
  (e1, data, setFormTimer (Some id) s2).

(** *** Events *)

Inductive event :=
| Mount
| Unmount
| ClickDemoTab (t : string)
| ClickHeroDot (i : Z)
| ClickHeroPrev
| ClickHeroNext
| ClickShotDot (i : Z)
| ClickShotPrev
| ClickShotNext
| Submit (typed : gmap string string)
| ClickEnviarOtra
| Wait (ms : Z).

(** The effects run after the first render: the carousel's interval, the
    demo-tab interval and the hero-text interval. *)
Definition mount (s : page) : page :=
  let '(q, s1) := setInterval QuoteTick 5000 s in
  let '(d, s2) := setInterval DemoTabTick 4000 s1 in
  let '(h, s3) := setInterval HeroTextTick 3000 s2 in
  setIntervalRefs (Some q) (Some d) (Some h) s3.

Definition clearRef (r : option Z) (s : page) : page :=
  match r with
  | Some id => clearTimer id s
  | None => s
  end.

(** The cleanup of the [formTimer] effect:
    [if (formTimer.current) window.clearTimeout(formTimer.current)]. *)
Definition formTimer_cleanup (s : page) : page :=
  match formTimer s with
  | Some id => if id =? 0 then s else clearTimer id s
  | None => s
  end.

(** The effect cleanups run when the page is torn down. *)
Definition unmount (s : page) : page :=
  let s1 := clearRef (demoInterval s) s in
  let s2 := clearRef (heroInterval s1) s1 in
  let s3 := formTimer_cleanup s2 in
  clearRef (quoteInterval s3) s3.

(** The browser dispatches [submit] only while the form is rendered
    ([formSent] is false) and its required controls are filled. *)
Definition submit_form (typed : gmap string string) (s : page) : page :=
  if formSent s then s
  else if required_present typed
       then snd (onSubmit (SubmitEvent typed false) s)
       else s.

Definition handle (ev : event) (s : page) : page :=
  match ev with
  | Mount => mount s
  | Unmount => unmount s
  | ClickDemoTab t => setDemoTab (Some t) s
  | ClickHeroDot i => setHeroIndex i s
  | ClickHeroPrev => setHeroIndex (Slider.hero_prev (heroIndex s)) s
  | ClickHeroNext => setHeroIndex (Slider.hero_next (heroIndex s)) s
  | ClickShotDot i => setShotIndex i s
  | ClickShotPrev => setShotIndex (Slider.shot_prev (shotIndex s)) s
  | ClickShotNext => setShotIndex (Slider.shot_next (shotIndex s)) s
  | Submit typed => submit_form typed s
  | ClickEnviarOtra => if formSent s then setFormSent false s else s
  | Wait ms => wait ms s
  end.

Definition run (evs : list event) (s : page) : page :=
  fold_left (fun st ev => handle ev st) evs s.

(** The pending timers that run a given callback. *)
Definition runs (cb : callback) (tm : timer) : bool :=
  bool_decide (timer_cb tm = cb).

Definition pending (cb : callback) (s : page) : list timer :=
  List.filter (runs cb) (timers s).

(** Exactly one timer runs [cb]: an interval of period [p], next due at
    [due]. *)
Definition sole_interval (cb : callback) (id p due : Z) (s : page) : Prop :=
  pending cb s = [Timer id due (Some p) cb].

(** The pending reverts: the timers whose callback is [FormRevert]. *)
Definition pending_reverts (s : page) : list timer := pending FormRevert s.

(** A filled-in form, for the examples. *)
Definition sample_lead : gmap string string :=
  list_to_map [ ("centro", "CAPS San Martin"); ("provincia", "Buenos Aires");
                ("localidad", "San Justo"); ("pacientes", "1200");
                ("turnos", "900"); ("contacto", "Ana, directora");
                ("whatsapp", "+54 11 1234-5678");
                ("email", "contacto@centro.gob.ar") ].

(** How many times a revert has fired so far. *)
Definition reverts_fired (s : page) : nat :=
  List.length (List.filter (fun e => bool_decide (snd e = FormRevert)) (fired s)).

(** *** The two sliders and the three rotations, by name *)

Inductive slider := HeroSlider | AppSlider.

Definition slider_length (sl : slider) : Z :=
  match sl with
  | HeroSlider => Js.length Slider.HERO_SHOTS
  | AppSlider => Js.length Slider.APP_SHOTS
  end.

Definition slider_index (sl : slider) (s : page) : Z :=
  match sl with
  | HeroSlider => heroIndex s
  | AppSlider => shotIndex s
  end.

Definition click_prev (sl : slider) : event :=
  match sl with HeroSlider => ClickHeroPrev | AppSlider => ClickShotPrev end.

Definition click_next (sl : slider) : event :=
  match sl with HeroSlider => ClickHeroNext | AppSlider => ClickShotNext end.

Definition click_dot (sl : slider) (i : Z) : event :=
  match sl with HeroSlider => ClickHeroDot i | AppSlider => ClickShotDot i end.

Inductive rotation := HeroPhrases | DemoTabs | Quotes.

Definition rotation_length (r : rotation) : Z :=
  match r with
  | HeroPhrases => Js.length heroPhrases
  | DemoTabs => Js.length tabs
  | Quotes => Js.length quotes
  end.

Definition rotation_period (r : rotation) : Z :=
  match r with
  | HeroPhrases => 3000
  | DemoTabs => 4000
  | Quotes => 5000
  end.

Definition rotation_tick (r : rotation) : callback :=
  match r with
  | HeroPhrases => HeroTextTick
  | DemoTabs => DemoTabTick
  | Quotes => QuoteTick
  end.

(** The current index; for the demo tabs, the position of the current tab
    among [tabs]. *)
Definition rotation_index (r : rotation) (s : page) : Z :=
  match r with
  | HeroPhrases => heroTextIndex s
  | DemoTabs => Js.indexOf tabs (demoTab s)
  | Quotes => quoteIndex s
  end.

(** [n] ticks of a rotation's timer, with nothing in between. *)
Definition ticks (r : rotation) (n : nat) (s : page) : page :=
  Nat.iter n (run_callback (rotation_tick r)) s.

(** A step of an interleaving: a timer callback runs, or the user does
    something. *)
Inductive action :=
| Tick (cb : callback)
| User (ev : event).

Definition act (s : page) (a : action) : page :=
  match a with
  | Tick cb => run_callback cb s
  | User ev => handle ev s
  end.

(** The demo-tab buttons are rendered from the three labels, so a click
    selects one of them. *)
Definition possible (a : action) : Prop :=
  match a with
  | User (ClickDemoTab t) => In t tabs
  | _ => True
  end.

(** A property of the component state that the bookkeeping of the timer
    table, the clock and the trace cannot disturb. *)
Record state_only (P : page -> Prop) : Prop := {
  so_timers : forall ts nx s, P s -> P (setTimers ts nx s);
  so_now : forall t s, P s -> P (setNow t s);
  so_log : forall cb s, P s -> P (logFired cb s)
}.

(** What the contact card shows: [{formSent ? confirmation : form}]. *)
Inductive lead_view := ConfirmationView | FormView.

Definition render_lead (s : page) : lead_view :=
  if formSent s then ConfirmationView else FormView.

(** Every pending revert is due at [D]. *)
Definition reverts_due_at (D : Z) (s : page) : Prop :=
  forall tm, In tm (timers s) -> timer_cb tm = FormRevert -> timer_due tm = D.

(** The form is editable. *)
Definition not_sent (s : page) : Prop := formSent s = false.

(** Every rotation's index is within its list. *)
Definition in_range (s : page) : Prop :=
  forall r, 0 <= rotation_index r s < rotation_length r.

End Landing.

(** ** JavaScript numbers and [parseFloat]

  A number is [NaN], an infinity or a finite binary64 value, kept as the
  rational it denotes, in lowest terms; the sign of zero is left out. *)

Module JsNumber.

Inductive number :=
| NaN
| Infinity (negative : bool)
| Finite (q : Q).

Definition of_Z (z : Z) : number := Finite (z # 1).

(** [Math.floor]. *)
Definition floor (x : number) : number :=
  match x with
  | Finite q => of_Z (Qfloor q)
  | _ => x
  end.

Definition is_digit (c : ascii) : bool :=
  ((48 <=? nat_of_ascii c) && (nat_of_ascii c <=? 57))%nat.

Definition is_dot (c : ascii) : bool := (nat_of_ascii c =? 46)%nat.

(** The white space [parseFloat] skips, within ASCII: tab, line feed,
    vertical tab, form feed, carriage return, space. *)
Definition is_space (c : ascii) : bool :=
  let n := nat_of_ascii c in
  (((9 <=? n) && (n <=? 13)) || (n =? 32))%nat.

Definition digit_value (c : ascii) : Z := Z.of_nat (nat_of_ascii c) - 48.

Fixpoint trimStart (s : string) : string :=
  match s with
  | String c rest => if is_space c then trimStart rest else s
  | EmptyString => s
  end.

(** The longest prefix made of digits, and what follows it. *)
Fixpoint span_digits (s : string) : list ascii * string :=
  match s with
  | String c rest =>
      if is_digit c
      then let '(ds, tl) := span_digits rest in (c :: ds, tl)
      else ([], s)
  | EmptyString => ([], s)
  end.

Definition digits_to_Z (ds : list ascii) : Z :=
  fold_left (fun acc c => 10 * acc + digit_value c) ds 0.

(** An optional sign: whether it is a minus, and what follows it. *)
Definition read_sign (s : string) : bool * string :=
  match s with
  | String "-"%char rest => (true, rest)
  | String "+"%char rest => (false, rest)
  | _ => (false, s)
  end.

(** The exponent part [e[+-]digits], 0 when there is none. *)
Definition read_exponent (s : string) : Z :=
  match s with
  | String c rest =>
      if (Ascii.eqb c "e" || Ascii.eqb c "E")%bool then
        let '(neg, r) := read_sign rest in
        let '(ds, _) := span_digits r in
        match ds with
        | [] => 0
        | _ => if neg then - digits_to_Z ds else digits_to_Z ds
        end
      else 0
  | EmptyString => 0
  end.

(** The binary64 value nearest to a non-negative rational, ties to the
    even significand: 53 bits of significand, exponents from -1074 (so small
    values are subnormal or 0), and an infinity from 2^1024 on.  [neg] gives
    the result its sign. *)
Definition round_binary64 (neg : bool) (q : Q) : number :=
  let n := Qnum q in
  let d := Z.pos (Qden q) in
  if n <=? 0 then Finite 0
  else
    let e0 := Z.log2 n - Z.log2 d - 53 in
    let e1 := if 2 ^ 53 <=? (n * 2 ^ Z.max 0 (- e0)) / (d * 2 ^ Z.max 0 e0)
              then e0 + 1 else e0 in
    let e := Z.max (-1074) e1 in
    let num := n * 2 ^ Z.max 0 (- e) in
    let den := d * 2 ^ Z.max 0 e in
    let m := num / den in
    let r := num mod den in
    let m' := if den <? 2 * r then m + 1
              else if (den =? 2 * r) && Z.odd m then m + 1
              else m in
    let v := ((m' # 1) * Qpower (2 # 1) e)%Q in
    if Qle_bool (Qpower (2 # 1) 1024) v then Infinity neg
    else Finite (Qred (if neg then - v else v)).

(** The number a binary64 float denotes. *)
Definition of_float (f : float) : number :=
  match Prim2SF f with
  | S754_zero _ => Finite 0
  | S754_infinity s => Infinity s
  | S754_nan => NaN
  | S754_finite s m e =>
      Finite (Qred (((if s then Z.neg m else Z.pos m) # 1) * Qpower (2 # 1) e))
  end.

(** [parseFloat(s)]: skip leading white space, then read the longest
    prefix that is a decimal literal and round its value to binary64;
    [NaN] when there is none. *)
Definition parseFloat (input : string) : number :=
  let '(neg, s) := read_sign (trimStart input) in
  if String.prefix "Infinity" s then Infinity neg
  else
    let '(ip, r1) := span_digits s in
    let '(fp, r2) :=
      match r1 with
      | String "."%char rest => span_digits rest
      | _ => ([], r1)
      end in
    match ip ++ fp with
    | [] => NaN
    | ds =>
        let e := read_exponent r2 - Z.of_nat (List.length fp) in
        round_binary64 neg (Qred ((digits_to_Z ds # 1) * Qpower (10 # 1) e))
    end.

(** [s.replace(/[^0-9.]/g, "")]: drop every character that is neither a
    digit nor a dot. *)
Fixpoint replace_non_numeric (s : string) : string :=
  match s with
  | String c rest =>
      if (is_digit c || is_dot c)%bool
      then String c (replace_non_numeric rest)
      else replace_non_numeric rest
  | EmptyString => EmptyString
  end.

End JsNumber.

(** ** [AnimatedCounter] *)

Module AnimatedCounter.
Import JsNumber.

(** The [value] prop: [number | string]. *)
Inductive prop_value :=
| VString (s : string)
| VNumber (n : number).

(** [typeof value === "string"
     ? parseFloat(value.replace(/[^0-9.]/g, "")) : value]. *)
Definition numericValue (value : prop_value) : number :=
  match value with
  | VString s => parseFloat (replace_non_numeric s)
  | VNumber n => n
  end.


(** The component's state: the [useInView] flag, the motion value (the
    spring's target), whether the spring is moving, the text of the span,
    and a count of the calls to [motionValue.set]. *)
Record counter := Counter {
  isInView : bool;
  motionValue : number;
  animating : bool;
  textContent : string;
  sets : nat
}.

(** What reaches the component: the intersection observer reports the span
    entering or leaving the margin-adjusted viewport; the spring emits a
    [change] with its latest value; the spring comes to rest on its
    target. *)
Inductive event :=
| Intersect (visible : bool)
| Change (latest : number)
| Rest.

(** framer-motion's [useInView(ref, {once})]: the flag follows the
    observer, and with [once] the element is unobserved at its first
    entry, so the flag stays true. *)
Definition useInView (once : bool) (flag visible : bool) : bool :=
  if (once && flag)%bool then true else visible.

Section Render.
(** [Number.prototype.toLocaleString], which depends on the locale of
    the host. *)
Variable toLocaleString : number -> string.

Variable value : prop_value.
Variable suffix : string.

(** [<span ref={ref}>0{suffix}</span>] with [useMotionValue(0)]. *)
Definition initial : counter :=
  {| isInView := false; motionValue := of_Z 0; animating := false;
     textContent := "0" ++ suffix; sets := 0 |}.

(** [motionValue.set(v)]: the spring starts towards [v]. *)
Definition motionValue_set (v : number) (c : counter) : counter :=
  {| isInView := isInView c; motionValue := v; animating := true;
     textContent := textContent c; sets := S (sets c) |}.

(** The first effect, [if (isInView) motionValue.set(numericValue)]. *)
Definition inView_effect (c : counter) : counter :=
  if isInView c then motionValue_set (numericValue value) c else c.

(** The subscriber of the second effect:
    [ref.current.textContent = Math.floor(latest).toLocaleString() + suffix]. *)
Definition on_change (latest : number) (c : counter) : counter :=
  {| isInView := isInView c; motionValue := motionValue c;
     animating := animating c;
     textContent := toLocaleString (floor latest) ++ suffix;
     sets := sets c |}.

(** One event.  The first effect depends on [isInView], [numericValue]
    and [motionValue]; with fixed props it runs again only when the flag
    changes.  The spring emits only while it moves. *)
Definition step (c : counter) (ev : event) : counter :=
  match ev with
  | Intersect visible =>
      let flag := useInView true (isInView c) visible in
      let c' := {| isInView := flag; motionValue := motionValue c;
                   animating := animating c;
                   textContent := textContent c; sets := sets c |} in
      if Bool.eqb flag (isInView c) then c' else inView_effect c'
  | Change latest =>
      if animating c then on_change latest c else c
  | Rest =>
      if animating c then
        let c' := on_change (motionValue c) c in
        {| isInView := isInView c'; motionValue := motionValue c';
           animating := false; textContent := textContent c';
           sets := sets c' |}
      else c
  end.

Definition run (evs : list event) : counter := fold_left step evs initial.

End Render.

End AnimatedCounter.

(** ** [CircularMetric]

    The gauge's arithmetic, on binary64 numbers as the browser runs it. *)

Module CircularMetric.
Local Open Scope float_scope.







(** The rational a finite float denotes. *)
Definition exact (f : float) : Q :=
  match JsNumber.of_float f with
  | JsNumber.Finite q => q
  | _ => 0%Q
  end.



End CircularMetric.

(** ** [PhotoTile] *)

Module PhotoTile.

Inductive tone := blue | violet | amber.

Definition tone_key (t : tone) : string :=
  match t with
  | blue => "blue"
  | violet => "violet"
  | amber => "amber"
  end.

Definition toneMap : gmap string string :=
  <["blue" := "from-slate-900/10 via-blue-900/10 to-cyan-900/10"]>
  (<["violet" := "from-slate-900/10 via-purple-900/10 to-fuchsia-900/10"]>
  (<["amber" := "from-slate-900/10 via-orange-900/10 to-amber-900/10"]> ∅)).

Record props := Props {
  title : string;
  desc : string;
  tone_prop : option tone;
  imageSrc : option string
}.

(** [tone = "blue"]: the default when the prop is not given. *)
Definition tone_of (p : props) : tone := default blue (tone_prop p).

(** What the [h-44] region holds. *)
Inductive layer :=
| Img (src alt : string)
| Div (className : string) (backgroundImage : option string).

Definition texture : string :=
  "radial-gradient(circle at 20% 10%, rgba(0,0,0,0.14) 0, rgba(0,0,0,0) 45%), radial-gradient(circle at 80% 35%, rgba(0,0,0,0.12) 0, rgba(0,0,0,0) 40%), radial-gradient(circle at 35% 90%, rgba(0,0,0,0.10) 0, rgba(0,0,0,0) 42%)".

(** [Boolean(imageSrc)]: [undefined] and the empty string are falsy. *)
Definition truthy (src : option string) : bool :=
  match src with
  | Some s => negb (String.eqb s "")
  | None => false
  end.

(** ["..." + toneMap[tone]]; a missing key concatenates as "undefined". *)
Definition gradient_class (t : tone) : string :=
  "absolute inset-0 bg-gradient-to-br "
    ++ default "undefined" (toneMap !! tone_key t).

Definition render (p : props) (imgError : bool) : list layer :=
  let showImage := (truthy (imageSrc p) && negb imgError)%bool in
  if showImage then
    [ Img (default "" (imageSrc p)) (title p);
      Div "absolute inset-0 bg-gradient-to-t from-white/92 via-white/30 to-transparent dark:from-zinc-900/95 dark:via-zinc-900/50" None ]
  else
    [ Div (gradient_class (tone_of p)) None;
      Div "absolute inset-0 opacity-[0.25]" (Some texture);
      Div "absolute inset-0 bg-gradient-to-t from-white/90 via-white/35 to-transparent dark:from-zinc-900 dark:via-zinc-900/40" None ].

(** [useState(false)] and the image's [onError={() => setImgError(true)}]. *)
Definition initial_imgError : bool := false.
Definition onError (imgError : bool) : bool := true.

Definition is_img (l : layer) : bool :=
  match l with
  | Img _ _ => true
  | Div _ _ => false
  end.

End PhotoTile.

(** ** [ThemeToggle] *)

Module ThemeToggle.

(** [cn(...classes)]: [classes.filter(Boolean).join(" ")]; [None] stands
    for [false], [null] and [undefined]. *)
Definition cn (classes : list (option string)) : string :=
  String.concat " "
    (omap (fun c => match c with
                    | Some s => if String.eqb s "" then None else Some s
                    | None => None
                    end) classes).

Record button := Button {
  aria_label : string;
  sets_theme : string;          (* onClick={() => setTheme(...)} *)
  className : string
}.

Definition inactive_class : string :=
  "text-black/50 dark:text-white/50 hover:text-black dark:hover:text-white".

Definition button_for (theme : option string) (label name active_class : string)
  : button :=
  Button label name
    (cn [ Some "rounded-full p-2 transition-all";
          Some (if decide (theme = Some name) then active_class
                else inactive_class) ]).

(** The component's output: [null] until [mounted], then the three
    buttons.  [theme] is what [useTheme()] reports. *)
Definition render (theme : option string) (mounted : bool) : option (list button) :=
  if negb mounted then None
  else Some
    [ button_for theme "Light Mode" "light" "bg-white text-black shadow-md scale-105";
      button_for theme "Dark Mode" "dark" "bg-black text-white shadow-md scale-105";
      button_for theme "System Mode" "system"
        "bg-zinc-200 dark:bg-zinc-700 text-black dark:text-white shadow-md scale-105" ].

(** [useState(false)] and the mount effect [setMounted(true)]. *)
Definition initial_mounted : bool := false.
Definition mount_effect (mounted : bool) : bool := true.

(** A button carries the active styling when its class is not the
    inactive one. *)
Definition is_active (b : button) : bool :=
  negb (String.eqb (className b)
          (cn [Some "rounded-full p-2 transition-all"; Some inactive_class])).

End ThemeToggle.

(** ** JavaScript strings *)

Module JsString.

(** [s.toLowerCase()], on the ASCII letters; other bytes are kept. *)
Definition lower_char (c : ascii) : ascii :=
  let n := nat_of_ascii c in
  if ((65 <=? n) && (n <=? 90))%nat then ascii_of_nat (n + 32) else c.

Fixpoint toLowerCase (s : string) : string :=
  match s with
  | String c rest => String (lower_char c) (toLowerCase rest)
  | EmptyString => EmptyString
  end.

(** [s.slice(n)]. *)
Fixpoint drop (n : nat) (s : string) : string :=
  match n, s with
  | O, _ => s
  | S k, String _ rest => drop k rest
  | S _, EmptyString => EmptyString
  end.

(** [s.replace(pat, rep)] with a string pattern: the first occurrence
    only. *)
Fixpoint replace (pat rep s : string) : string :=
  if String.prefix pat s then (rep ++ drop (String.length pat) s)%string
  else match s with
       | String c rest => String c (replace pat rep rest)
       | EmptyString => EmptyString
       end.

End JsString.

(** ** The header: in-page navigation and the mobile menu *)

Module Nav.

(** The elements of the page that carry an [id]: its sections. *)
Definition section_ids : list string :=
  ["top"; "producto"; "app"; "gratis"; "demo"; "impacto"; "roadmap"; "contacto"].

(** [document.getElementById(id)]. *)
Definition getElementById (id : string) : option string :=
  List.find (String.eqb id) section_ids.

(** [scrollToId(id)]: the element scrolled into view, if any;
    [el?.scrollIntoView(...)] does nothing without an element. *)
Definition scrollToId (id : string) : option string := getElementById id.

Definition desktop_items : list string :=
  ["Producto"; "App real"; "Gratis"; "Impacto"; "Roadmap"].

Definition mobile_items : list string :=
  ["Producto"; "App real"; "Gratis"; "Impacto"; "Roadmap"; "Contacto"].

(** The id a menu button asks for: [item.toLowerCase().replace(" ", "")]. *)
Definition anchor (item : string) : string :=
  JsString.replace " " "" (JsString.toLowerCase item).

(** A desktop menu button: [onClick={() => scrollToId(anchor)}]. *)
Definition click_desktop_item (item : string) : option string :=
  scrollToId (anchor item).

(** The mobile menu: [useState(false)], the toggle
    [setMobileMenuOpen(!mobileMenuOpen)], and a menu button, which scrolls
    and then closes the menu.  The buttons exist only while the menu is
    open. *)
Definition initial_menu : bool := false.

Definition toggle_menu (mobileMenuOpen : bool) : bool := negb mobileMenuOpen.

Definition click_mobile_item (item : string) (mobileMenuOpen : bool)
  : option string * bool :=
  if mobileMenuOpen then (scrollToId (anchor item), false)
  else (None, mobileMenuOpen).

End Nav.

(** ** The shot on screen and the selection marks *)

Module Shots.
Import Slider Landing.

(** [APP_SHOTS[shotIndex % APP_SHOTS.length]] and
    [HERO_SHOTS[heroIndex % HERO_SHOTS.length]]. *)
Definition active_shot (sl : slider) (s : page) : option shot :=
  match sl with
  | HeroSlider => Js.get HERO_SHOTS (Js.rem (heroIndex s) (Js.length HERO_SHOTS))
  | AppSlider => Js.get APP_SHOTS (Js.rem (shotIndex s) (Js.length APP_SHOTS))
  end.

Definition shots_of (sl : slider) : list shot :=
  match sl with
  | HeroSlider => HERO_SHOTS
  | AppSlider => APP_SHOTS
  end.

(** [arr.map((x, i) => f(x, i))]. *)
Fixpoint mapi_from {A B} (f : A -> Z -> B) (arr : list A) (i : Z) : list B :=
  match arr with
  | [] => []
  | x :: rest => f x i :: mapi_from f rest (i + 1)
  end.

Definition mapi {A B} (f : A -> Z -> B) (arr : list A) : list B :=
  mapi_from f arr 0.

(** Which hero dot is filled: [heroIndex === i]. *)
Definition hero_dots (s : page) : list bool :=
  mapi (fun _ i => heroIndex s =? i) HERO_SHOTS.

(** Which app-shot tab is highlighted:
    [shotIndex % APP_SHOTS.length === i]. *)
Definition app_tabs (s : page) : list bool :=
  mapi (fun _ i => Js.rem (shotIndex s) (Js.length APP_SHOTS) =? i) APP_SHOTS.

(** Which quote bar is wide: [i === index]. *)
Definition quote_bars (s : page) : list bool :=
  mapi (fun _ i => i =? quoteIndex s) quotes.

(** Which demo tab is highlighted: [demoTab === t]. *)
Definition demo_tabs (s : page) : list bool :=
  List.map (fun t => bool_decide (demoTab s = Some t)) tabs.

Definition count_true (l : list bool) : nat :=
  List.length (List.filter (fun b => b) l).

(** The events a rendered page can receive: a dot or tab button exists
    for each element of its list, so its index is within the list. *)
Definition rendered (ev : event) : Prop :=
  match ev with
  | ClickDemoTab t => In t tabs
  | ClickHeroDot i => 0 <= i < Js.length HERO_SHOTS
  | ClickShotDot i => 0 <= i < Js.length APP_SHOTS
  | _ => True
  end.

Definition sliders_in_range (s : page) : Prop :=
  forall sl, 0 <= slider_index sl s < slider_length sl.

End Shots.

(** ** [PhoneFrame] *)

Module PhoneFrame.

Record props := Props {
  src : option string;
  alt : option string;
  label : option string
}.

(** What the screen of the phone holds: the screenshot, or the children
    (the replica). *)
Inductive screen :=
| Img (src alt : string)
| Children.

Record view := View {
  view_screen : screen;
  view_caption : option string     (* the "Dentro de la app" box *)
}.

(** A string prop used as a condition: [undefined] and "" are falsy. *)
Definition truthy (x : option string) : bool :=
  match x with
  | Some s => negb (String.eqb s "")
  | None => false
  end.

Definition render (p : props) (imgError : bool) : view :=
  let showImage := (truthy (src p) && negb imgError)%bool in
  {| view_screen :=
       if showImage
       then Img (default "" (src p))
                (if truthy (alt p) then default "" (alt p) else "Captura de Zanoo")
       else Children;
     view_caption := if truthy (label p) then label p else None |}.

(** The component between two events: its current props and [imgError]. *)
Record frame := Frame {
  frame_props : props;
  imgError : bool
}.

(** Mounting: [useState(false)], then the effect [setImgError(false)]. *)
Definition mount (p : props) : frame := Frame p false.

(** The image's [onError={() => setImgError(true)}]; there is an image to
    fail only while one is shown. *)
Definition onError (f : frame) : frame :=
  match view_screen (render (frame_props f) (imgError f)) with
  | Img _ _ => Frame (frame_props f) true
  | Children => f
  end.

(** A render with new props: the effect depends on [src] and runs again,
    clearing the flag, only when [src] has changed. *)
Definition rerender (p : props) (f : frame) : frame :=
  if decide (src p = src (frame_props f))
  then Frame p (imgError f)
  else Frame p false.

Inductive event :=
| Error
| Render (p : props).

Definition step (f : frame) (ev : event) : frame :=
  match ev with
  | Error => onError f
  | Render p => rerender p f
  end.

Definition shows_image (f : frame) : bool :=
  match view_screen (render (frame_props f) (imgError f)) with
  | Img _ _ => true
  | Children => false
  end.

(** The props the page hands to the frame of a slider:
    [label={activeShot.label} src={activeShot.src}]; reading a field of an
    undefined shot throws, which is [None]. *)
Definition props_of_slider (sl : Landing.slider) (s : Landing.page) : option props :=
  match Shots.active_shot sl s with
  | Some sh => Some (Props (Slider.shot_src sh) None (Some (Slider.shot_label sh)))
  | None => None
  end.

End PhoneFrame.

(** ** The mounted page *)

Module Mounted.
Import Landing.

(** What can happen to a page between its mount and its teardown: the
    events of the rendered page, but no second mount and no teardown. *)
Definition live (ev : event) : Prop :=
  match ev with
  | Mount | Unmount => False
  | _ => Shots.rendered ev
  end.

(** The timers of a mounted page: the three intervals, with the ids the
    cleanups hold, and reverts, which are one-shot and came later; the ref
    holds nothing or the id of a revert. *)
Record timers_ok (s : page) : Prop := {
  ok_quote : quoteInterval s = Some 1;
  ok_demo : demoInterval s = Some 2;
  ok_hero : heroInterval s = Some 3;
  ok_next : 4 <= nextTimerId s;
  ok_ref : forall id, formTimer s = Some id -> 4 <= id < nextTimerId s;
  ok_timers :
    forall tm, In tm (timers s) ->
      (1 <= timer_id tm <= 3 /\ timer_cb tm <> FormRevert) \/
      (timer_cb tm = FormRevert /\ timer_repeat tm = None /\
       4 <= timer_id tm < nextTimerId s)
}.

(** [n] clicks on the same button. *)
Definition clicks (ev : event) (n : nat) (s : page) : page :=
  Nat.iter n (handle ev) s.

End Mounted.

(** ** The asset-seeding script

    The script that creates placeholder images under [public/].  The file
    system is a set of directories and a map from file paths to contents;
    paths are relative to the working directory, which exists.  A call
    either returns or throws, and what was done before a throw stays
    done. *)

Module Seed.

(** [Buffer.from(text, 'base64')], kept by its text. *)
Inductive buffer := BufferFromBase64 (text : string).

Record world := World {
  dirs : gset string;
  files : gmap string buffer;
  stdout : list string
}.

Inductive errno := ENOENT | ENOTDIR | EISDIR | EEXIST.

(** A computation on the world that returns a value or throws. *)
Definition M (A : Type) : Type := world -> (A * world) + (errno * world).

Definition ret {A} (x : A) : M A := fun w => inl (x, w).

Definition bind {A B} (m : M A) (k : A -> M B) : M B :=
  fun w => match m w with
           | inl (x, w') => k x w'
           | inr e => inr e
           end.

Definition throw {A} (e : errno) : M A := fun w => inr (e, w).

Notation "x <- m ;; k" := (bind m (fun x => k))
  (at level 100, m at next level, right associativity).
Notation "m ;;; k" := (bind m (fun _ => k))
  (at level 100, right associativity).

(** [arr.forEach(f)]. *)
Fixpoint forEach {A} (arr : list A) (f : A -> M unit) : M unit :=
  match arr with
  | [] => ret tt
  | x :: rest => f x ;;; forEach rest f
  end.

(** *** Paths *)

(** [s.split(sep)] for a one-character separator. *)
Fixpoint split_from (sep : ascii) (s : string) (cur : string) : list string :=
  match s with
  | EmptyString => [cur]
  | String c rest =>
      if Ascii.eqb c sep then cur :: split_from sep rest ""
      else split_from sep rest (cur ++ String c "")
  end.

Definition split (sep : ascii) (s : string) : list string := split_from sep s "".

(** The path and the directories above it, outermost first:
    for "a/b/c", "a", "a/b" and "a/b/c". *)
Fixpoint prefixes_from (above : string) (segments : list string) : list string :=
  match segments with
  | [] => []
  | seg :: rest =>
      let here := if String.eqb above "" then seg else (above ++ "/" ++ seg)%string in
      here :: prefixes_from here rest
  end.

Definition ancestors (p : string) : list string :=
  prefixes_from "" (split "/" p).

(** [path.dirname(p)] for a relative path without a trailing slash. *)
Definition dirname (p : string) : string :=
  match List.removelast (split "/" p) with
  | [] => "."
  | segs => String.concat "/" segs
  end.

(** The last path segment, reversed, trailing slashes ignored. *)
Fixpoint drop_slashes (r : list ascii) : list ascii :=
  match r with
  | c :: rest => if Ascii.eqb c "/" then drop_slashes rest else r
  | [] => []
  end.

Fixpoint until_slash (r : list ascii) : list ascii :=
  match r with
  | c :: rest => if Ascii.eqb c "/" then [] else c :: until_slash rest
  | [] => []
  end.

Definition basename_rev (p : string) : list ascii :=
  until_slash (drop_slashes (List.rev (list_ascii_of_string p))).

(** Cut a reversed name at its last dot: the extension with its dot, and
    what stands before it, reversed. *)
Fixpoint cut_at_dot (r : list ascii) (after : list ascii)
  : option (list ascii * list ascii) :=
  match r with
  | [] => None
  | c :: rest =>
      if Ascii.eqb c "." then Some (c :: after, rest)
      else cut_at_dot rest (c :: after)
  end.

(** [path.extname(p)]: from the last dot of the last segment to its end;
    "" when there is no dot, when the name starts with its only dot, and
    for "..". *)
Definition extname (p : string) : string :=
  match cut_at_dot (basename_rev p) [] with
  | None => ""
  | Some (ext, before) =>
      match before, ext with
      | [], _ => ""
      | [d], [_] => if Ascii.eqb d "." then "" else string_of_list_ascii ext
      | _, _ => string_of_list_ascii ext
      end
  end.

(** *** The file system *)

Definition is_dir (p : string) (w : world) : bool :=
  String.eqb p "." || bool_decide (p ∈ dirs w).

Definition is_file (p : string) (w : world) : bool :=
  bool_decide (is_Some (files w !! p)).

(** [fs.existsSync(p)]. *)
Definition existsSync (p : string) : M bool :=
  fun w => inl (is_dir p w || is_file p w, w).

(** [fs.mkdirSync(p, { recursive: true })]: creates [p] and the missing
    directories above it; throws when [p] or a directory above it is a
    file. *)
Definition mkdirSync_recursive (p : string) : M unit :=
  fun w =>
    if is_file p w then inr (EEXIST, w)
    else if existsb (fun a => is_file a w) (ancestors p) then inr (ENOTDIR, w)
    else inl (tt, World (list_to_set (ancestors p) ∪ dirs w) (files w) (stdout w)).

(** [fs.writeFileSync(file, content)]: creates or overwrites the file;
    throws when its directory is missing or is a file, and when the path is
    a directory. *)
Definition writeFileSync (file : string) (content : buffer) : M unit :=
  fun w =>
    if is_file (dirname file) w then inr (ENOTDIR, w)
    else if negb (is_dir (dirname file) w) then inr (ENOENT, w)
    else if is_dir file w then inr (EISDIR, w)
    else inl (tt, World (dirs w) (<[file := content]> (files w)) (stdout w)).

(** [console.log(line)]. *)
Definition console_log (line : string) : M unit :=
  fun w => inl (tt, World (dirs w) (files w) (stdout w ++ [line])).

(** *** The script *)

Definition seed_dirs : list string :=
  ["public/brand"; "public/shots"; "public/photos"].

Definition seed_files : list string :=
  [ "public/brand/zanoo-logo.png";
    "public/shots/inicio-paciente.png";
    "public/shots/mis-medicos.png";
    "public/shots/turnos-recepcion.png";
    "public/shots/metricas-direccion.png";
    "public/photos/papeles-whatsapp-cuaderno.jpg";
    "public/photos/fila-turnos-duplicados.jpg";
    "public/photos/historia-clinica-incompleta.jpg" ].

Definition pngBuffer : buffer :=
  BufferFromBase64 "iVBORw0KGgoAAAANSUhEUgAAAAEAAAABCAYAAAAfFcSJAAAACklEQVR4nGMAAQAABQABDQottAAAAABJRU5ErkJggg==".

Definition jpgBuffer : buffer :=
  BufferFromBase64 "/9j/4AAQSkZJRgABAQEASABIAAD/2wBDAP//////////////////////////////////////////////////////////////////////////////////////wgALCAABAAEBAREA/8QAFBABAAAAAAAAAAAAAAAAAAAAAP/aAAgBAQABPxA=".

(** [ext === '.jpg' || ext === '.jpeg' ? jpgBuffer : pngBuffer]. *)
Definition content_for (file : string) : buffer :=
  let ext := extname file in
  if (String.eqb ext ".jpg" || String.eqb ext ".jpeg")%bool
  then jpgBuffer else pngBuffer.

Definition ensure_dir (dir : string) : M unit :=
  e <- existsSync dir ;;
  if negb e then mkdirSync_recursive dir else ret tt.

Definition create_file (file : string) : M unit :=
  writeFileSync file (content_for file) ;;;
  console_log ("Created " ++ file).

Definition seed : M unit :=
  forEach seed_dirs ensure_dir ;;;
  forEach seed_files create_file.

(** *** The images the page asks for *)

(** The [imageSrc] of the three problem tiles. *)
Definition PROBLEM_TILES_imageSrc : list string :=
  [ "/photos/papeles-whatsapp-cuaderno.jpg";
    "/photos/fila-turnos-duplicados.jpg";
    "/photos/historia-clinica-incompleta.jpg" ].

(** The logos: the two of [BrandLogo] (the first is also the logo of the
    demo card and of the replica screen) and the one of the footer. *)
Definition brand_logos : list string :=
  [ "/brand/zanoo-logo-color-v2.png"; "/brand/zanoo-logo-white-v2.png";
    "/brand/zanoo-logo-text-white.png" ].

(** The screenshots of the two sliders. *)
Definition shot_srcs : list string :=
  omap Slider.shot_src (Slider.HERO_SHOTS ++ Slider.APP_SHOTS).

(** The file that serves a URL path: the framework serves [public/] at the
    root. *)
Definition served_from (url : string) : string := ("public" ++ url)%string.

End Seed.

(** ** What the spring reports to the counter *)

Module CounterReports.
Import JsNumber AnimatedCounter.

Section Reports.
Variable toLocaleString : number -> string.
Variable value : prop_value.
Variable suffix : string.

(** The values the spring hands to the subscriber along a sequence of
    events, oldest first.  The spring is set moving towards the numeric
    value when the span is seen for the first time and moves until it comes
    to rest; while it moves it reports each [latest] value of a change, and
    the numeric value itself when it rests.  [seen] and [moving] say whether
    the span has been seen and whether the spring moves before the events. *)
Fixpoint reports_from (seen moving : bool) (evs : list event) : list number :=
  match evs with
  | [] => []
  | Intersect true :: rest =>
      reports_from true (if seen then moving else true) rest
  | Intersect false :: rest =>
      reports_from seen moving rest
  | Change latest :: rest =>
      (if moving then [latest] else []) ++ reports_from seen moving rest
  | Rest :: rest =>
      (if moving then [numericValue value] else []) ++ reports_from seen false rest
  end.

Definition reports (evs : list event) : list number :=
  reports_from false false evs.

(** What the span is to read after the given last report, if any:
    [Math.floor(latest).toLocaleString() + suffix], and the rendered
    [0{suffix}] before the first. *)
Definition shown (latest : option number) : string :=
  match latest with
  | Some y => (toLocaleString (floor y) ++ suffix)%string
  | None => ("0" ++ suffix)%string
  end.

(** The component agrees with the spring's account: the flag says whether
    the span has been seen, the spring moves exactly while the component
    waits for it, and a moving spring heads for the numeric value. *)
Definition tracks (c : counter) (seen moving : bool) : Prop :=
  isInView c = seen /\ animating c = moving /\
  (moving = true -> motionValue c = numericValue value).

End Reports.

End CounterReports.

(** ** Theorems *)

Section SliderFacts.
Import Slider.

Lemma rem_is_mod (a b : Z) : 0 <= a -> 0 < b -> Js.rem a b = a mod b.
Proof. intros Ha Hb. unfold Js.rem. apply Z.rem_mod_nonneg; lia. Qed.

Lemma next_update_range (len p : Z) :
  0 < len -> 0 <= p -> 0 <= next_update len p < len.
Proof.
  intros Hlen Hp. unfold next_update.
  rewrite rem_is_mod by lia. apply Z.mod_pos_bound; lia.
Qed.

Lemma prev_update_range (len p : Z) :
  0 <= p < len -> 0 <= prev_update len p < len.
Proof.
  intros Hp. unfold prev_update. destruct (Z.eqb_spec p 0); lia.
Qed.

Lemma prev_update_mod (len p : Z) :
  0 <= p < len -> prev_update len p = (p + len - 1) mod len.
Proof.
  intros Hp. unfold prev_update. destruct (Z.eqb_spec p 0) as [-> | Hne].
  - symmetry. apply Z.mod_small. lia.
  - replace (p + len - 1) with (p - 1 + 1 * len) by lia.
    rewrite Z.mod_add by lia. symmetry. apply Z.mod_small. lia.
Qed.

Lemma next_prev (len p : Z) :
  0 <= p < len -> next_update len (prev_update len p) = p.
Proof.
  intros Hp. unfold next_update, prev_update.
  destruct (Z.eqb_spec p 0) as [-> | Hne].
  - replace (len - 1 + 1) with len by lia. unfold Js.rem. apply Z.rem_same. lia.
  - rewrite rem_is_mod by lia. replace (p - 1 + 1) with p by lia.
    apply Z.mod_small. lia.
Qed.

Lemma prev_next (len p : Z) :
  0 <= p < len -> prev_update len (next_update len p) = p.
Proof.
  intros Hp. unfold next_update, prev_update.
  rewrite rem_is_mod by lia.
  destruct (Z.eq_dec (p + 1) len) as [He | Hne].
  - rewrite He, Z.mod_same by lia. simpl. lia.
  - rewrite Z.mod_small by lia.
    destruct (Z.eqb_spec (p + 1) 0); lia.
Qed.

End SliderFacts.



(** ** Rotations *)

Section RotationFacts.
Import Landing.

Lemma in_range_intro (s : page) :
  In (demoTab s) (List.map Some tabs) ->
  0 <= heroTextIndex s < 4 ->
  0 <= quoteIndex s < 3 ->
  in_range s.
Proof.
  intros Ht Hh Hq [| |]; simpl; unfold Js.length; simpl; try lia.
  simpl in Ht. destruct Ht as [<- | [<- | [<- | []]]]; vm_compute; split; congruence.
Qed.

Lemma in_range_elim (s : page) :
  in_range s ->
  In (demoTab s) (List.map Some tabs) /\
  0 <= heroTextIndex s < 4 /\ 0 <= quoteIndex s < 3.
Proof.
  intros H. split; [| split].
  - specialize (H DemoTabs). simpl in H. unfold Js.indexOf, tabs in *.
    simpl in *. repeat case_decide; simpl; auto. unfold Js.length in H. simpl in H. lia.
  - apply (H HeroPhrases).
  - apply (H Quotes).
Qed.

Lemma demo_tick_index (s : page) :
  In (demoTab s) (List.map Some tabs) ->
  In (demoTab (run_callback DemoTabTick s)) (List.map Some tabs) /\
  Js.indexOf tabs (demoTab (run_callback DemoTabTick s))
  = (Js.indexOf tabs (demoTab s) + 1) mod 3.
Proof.
  simpl. intros [<- | [<- | [<- | []]]]; vm_compute; auto 6.
Qed.

Lemma run_callback_in_range (cb : callback) (s : page) :
  in_range s -> in_range (run_callback cb s).
Proof.
  intros H. apply in_range_elim in H. destruct H as (Ht & Hh & Hq).
  destruct cb; apply in_range_intro; simpl; auto.
  - change (Js.length quotes) with 3. rewrite rem_is_mod by lia.
    apply Z.mod_pos_bound. lia.
  - apply (demo_tick_index s Ht).
  - change (Js.length heroPhrases) with 4. rewrite rem_is_mod by lia.
    apply Z.mod_pos_bound. lia.
Qed.

End RotationFacts.

(** ** What the clock preserves *)

Section ClockFacts.
Import Landing.

Variable P : page -> Prop.
Hypothesis P_state : state_only P.
Hypothesis P_callback : forall cb s, P s -> P (run_callback cb s).

Lemma fire_all_preserves (due : list timer) (s : page) :
  P s -> P (fold_left fire due s).
Proof.
  revert s. induction due as [| tm due IH]; intros s Hs; simpl; auto.
  apply IH. unfold fire. apply P_callback. now apply so_log.
Qed.

Lemma tick_ms_preserves (s : page) : P s -> P (tick_ms s).
Proof.
  intros Hs. unfold tick_ms. apply fire_all_preserves.
  apply so_now; auto. apply so_timers; auto.
Qed.

Lemma elapse_preserves (n : nat) (s : page) : P s -> P (elapse n s).
Proof.
  revert s. induction n as [| n IH]; intros s Hs; simpl; auto.
  apply IH. now apply tick_ms_preserves.
Qed.

End ClockFacts.

Section RotationInvariant.
Import Landing.

Lemma in_range_state_only : state_only in_range.
Proof. split; intros; intros r; specialize (H r); destruct r; exact H. Qed.

Lemma elapse_in_range (n : nat) (s : page) : in_range s -> in_range (elapse n s).
Proof.
  apply elapse_preserves.
  - apply in_range_state_only.
  - apply run_callback_in_range.
Qed.

Lemma handle_in_range (ev : event) (s : page) :
  possible (User ev) -> in_range s -> in_range (handle ev s).
Proof.
  intros Hev H.
  destruct ev; simpl; try (intros r; specialize (H r); destruct r; exact H).
  - (* Unmount *)
    unfold unmount, clearRef, formTimer_cleanup.
    intros r; specialize (H r).
    repeat match goal with
           | |- context [match ?x with _ => _ end] => destruct x
           end; destruct r; exact H.
  - (* ClickDemoTab *)
    apply in_range_elim in H. destruct H as (_ & Hh & Hq).
    apply in_range_intro; simpl; auto.
    simpl in Hev. destruct Hev as [<- | [<- | [<- | []]]]; auto.
  - (* Submit *)
    unfold submit_form. destruct (formSent s); auto.
    destruct (required_present typed); auto.
  - (* ClickEnviarOtra *)
    destruct (formSent s); auto.
  - (* Wait *)
    now apply elapse_in_range.
Qed.

Lemma act_in_range (a : action) (s : page) :
  possible a -> in_range s -> in_range (act s a).
Proof.
  destruct a as [cb | ev]; simpl; intros Ha H.
  - now apply run_callback_in_range.
  - now apply handle_in_range.
Qed.

Lemma initial_in_range : in_range initial_page.
Proof. intros [| |]; vm_compute; split; congruence. Qed.

Lemma ticks_succ (r : rotation) (n : nat) (s : page) :
  ticks r (S n) s = run_callback (rotation_tick r) (ticks r n s).
Proof. reflexivity. Qed.

Lemma ticks_in_range (r : rotation) (n : nat) (s : page) :
  in_range s -> in_range (ticks r n s).
Proof.
  intros H. induction n as [| n IH]; [exact H |].
  rewrite ticks_succ. now apply run_callback_in_range.
Qed.

(** One tick moves a rotation's index by one, modulo the list's length. *)
Lemma tick_advances (r : rotation) (s : page) :
  in_range s ->
  rotation_index r (run_callback (rotation_tick r) s)
  = (rotation_index r s + 1) mod rotation_length r.
Proof.
  intros H. pose proof (H r) as Hr. apply in_range_elim in H.
  destruct H as (Ht & Hh & Hq).
  destruct r; simpl in *.
  - apply rem_is_mod; [lia | reflexivity].
  - apply (demo_tick_index s Ht).
  - apply rem_is_mod; [lia | reflexivity].
Qed.

Lemma ticks_index (r : rotation) (n : nat) (s : page) :
  in_range s ->
  rotation_index r (ticks r n s)
  = (rotation_index r s + Z.of_nat n) mod rotation_length r.
Proof.
  intros H. pose proof (H r) as Hr.
  assert (Hl : 0 < rotation_length r) by lia.
  induction n as [| n IH].
  - simpl. rewrite Z.add_0_r. symmetry. apply Z.mod_small. exact Hr.
  - rewrite ticks_succ, tick_advances by now apply ticks_in_range.
    rewrite IH, Z.add_mod_idemp_l by lia. f_equal. lia.
Qed.

End RotationInvariant.


(** ** Sliders *)

Section SliderTheorems.
Import Landing.

Lemma slider_length_pos (sl : slider) : 0 < slider_length sl.
Proof. destruct sl; reflexivity. Qed.

Lemma click_prev_index (sl : slider) (s : page) :
  slider_index sl (handle (click_prev sl) s)
  = Slider.prev_update (slider_length sl) (slider_index sl s).
Proof. destruct sl; reflexivity. Qed.

Lemma click_next_index (sl : slider) (s : page) :
  slider_index sl (handle (click_next sl) s)
  = Slider.next_update (slider_length sl) (slider_index sl s).
Proof. destruct sl; reflexivity. Qed.

(** C10: on the hero-shot and app-shot sliders, from an index [p] within
    [0, length - 1] the previous button gives [(p + length - 1) mod length]
    (from 0 it wraps to [length - 1]), and previous-then-next and
    next-then-previous both give [p] back. *)
Theorem slider_prev_next_inverse (sl : slider) (s : page) :
  0 <= slider_index sl s < slider_length sl ->
  slider_index sl (handle (click_prev sl) s)
  = (slider_index sl s + slider_length sl - 1) mod slider_length sl /\
  (slider_index sl s = 0 ->
   slider_index sl (handle (click_prev sl) s) = slider_length sl - 1) /\
  slider_index sl (run [click_prev sl; click_next sl] s) = slider_index sl s /\
  slider_index sl (run [click_next sl; click_prev sl] s) = slider_index sl s.
Proof.
  intros Hp. unfold run. simpl fold_left.
  rewrite !click_next_index, !click_prev_index, click_next_index.
  repeat split.
  - now apply prev_update_mod.
  - intros ->. reflexivity.
  - now apply next_prev.
  - now apply prev_next.
Qed.

Lemma slider_prev_next_inverse_witness :
  0 <= slider_index AppSlider (handle (ClickShotDot 2) initial_page)
    < slider_length AppSlider /\
  slider_index AppSlider
    (run [ClickShotPrev; ClickShotNext] (handle (ClickShotDot 2) initial_page))
  = 2.
Proof.
  assert (H : 0 <= slider_index AppSlider (handle (ClickShotDot 2) initial_page)
              < slider_length AppSlider) by (vm_compute; split; congruence).
  split; [exact H |].
  exact (proj1 (proj2 (proj2
    (slider_prev_next_inverse AppSlider (handle (ClickShotDot 2) initial_page) H)))).
Defined.

End SliderTheorems.

(** ** The lead-capture form *)

Section FormFacts.
Import Landing.

Lemma fromEntries_fold_other (l : list (string * string)) (m : gmap string string) (k : string) :
  ~ In k (List.map fst l) ->
  fold_left (fun o kv => <[fst kv := snd kv]> o) l m !! k = m !! k.
Proof.
  revert m. induction l as [| [k' v'] l IH]; intros m Hk; simpl in *; auto.
  rewrite IH by tauto. apply lookup_insert_ne. tauto.
Qed.

Lemma fromEntries_fold_lookup (l : list (string * string)) (m : gmap string string)
      (k v : string) :
  List.NoDup (List.map fst l) -> In (k, v) l ->
  fold_left (fun o kv => <[fst kv := snd kv]> o) l m !! k = Some v.
Proof.
  revert m. induction l as [| [k' v'] l IH]; intros m Hnd Hin; simpl in *.
  - contradiction.
  - inversion Hnd as [| ? ? Hk' Hnd']; subst.
    destruct Hin as [Heq | Hin].
    + inversion Heq; subst. rewrite fromEntries_fold_other by exact Hk'.
      apply lookup_insert_eq.
    + now apply IH.
Qed.

Lemma fromEntries_fold_absent (l : list (string * string)) (m : gmap string string)
      (k : string) :
  ~ In k (List.map fst l) -> m !! k = None ->
  fold_left (fun o kv => <[fst kv := snd kv]> o) l m !! k = None.
Proof. intros Hk Hm. now rewrite fromEntries_fold_other. Qed.

Lemma control_names_nodup : List.NoDup (List.map control_name form_controls).
Proof.
  simpl. repeat (constructor; [simpl; intuition discriminate |]). constructor.
Qed.

(** The record gathered by the handler holds every named control's value,
    and nothing else. *)
Lemma formData_record (typed : gmap string string) :
  (forall c, In c form_controls ->
     fromEntries (formData_entries typed) !! control_name c
     = Some (control_value typed c)) /\
  (forall k, ~ In k (List.map control_name form_controls) ->
     fromEntries (formData_entries typed) !! k = None).
Proof.
  assert (Hfst : List.map fst (formData_entries typed)
                 = List.map control_name form_controls).
  { unfold formData_entries. rewrite List.map_map. reflexivity. }
  split.
  - intros c Hc. unfold fromEntries. apply fromEntries_fold_lookup.
    + rewrite Hfst. apply control_names_nodup.
    + unfold formData_entries.
      apply (List.in_map (fun c => (control_name c, control_value typed c))), Hc.
  - intros k Hk. unfold fromEntries. apply fromEntries_fold_absent.
    + now rewrite Hfst.
    + apply lookup_empty.
Qed.

(** Callbacks leave the timer table and the clock alone. *)
Lemma run_callback_frame (cb : callback) (s : page) :
  timers (run_callback cb s) = timers s /\
  now (run_callback cb s) = now s /\
  nextTimerId (run_callback cb s) = nextTimerId s /\
  formTimer (run_callback cb s) = formTimer s.
Proof. destruct cb; repeat split. Qed.

Lemma fire_all_frame (due : list timer) (s : page) :
  timers (fold_left fire due s) = timers s /\
  now (fold_left fire due s) = now s /\
  nextTimerId (fold_left fire due s) = nextTimerId s /\
  formTimer (fold_left fire due s) = formTimer s.
Proof.
  revert s. induction due as [| tm due IH]; intros s; simpl; auto.
  destruct (IH (fire s tm)) as (-> & -> & -> & ->).
  unfold fire. destruct (timer_cb tm); repeat split.
Qed.

Lemma tick_ms_timers (s : page) :
  timers (tick_ms s) = omap (rearm (now s + 1)) (timers s).
Proof. unfold tick_ms. now rewrite (proj1 (fire_all_frame _ _)). Qed.

Lemma tick_ms_now (s : page) : now (tick_ms s) = now s + 1.
Proof.
  unfold tick_ms.
  now rewrite (proj1 (proj2 (fire_all_frame _ _))).
Qed.

Lemma elapse_now (n : nat) (s : page) : now (elapse n s) = now s + Z.of_nat n.
Proof.
  revert s. induction n as [| n IH]; intros s.
  - simpl. lia.
  - cbn [elapse]. rewrite IH, tick_ms_now. lia.
Qed.

Lemma not_sent_state_only : state_only not_sent.
Proof. split; intros; assumption. Qed.

Lemma not_sent_callback (cb : callback) (s : page) :
  not_sent s -> not_sent (run_callback cb s).
Proof. destruct cb; intros H; [exact H | exact H | exact H | reflexivity]. Qed.

(** No timer ever shows the confirmation again. *)
Lemma elapse_not_sent (n : nat) (s : page) :
  formSent s = false -> formSent (elapse n s) = false.
Proof.
  apply (elapse_preserves not_sent not_sent_state_only not_sent_callback).
Qed.

Lemma fire_all_revert (due : list timer) (tm : timer) (s : page) :
  In tm due -> timer_cb tm = FormRevert ->
  formSent (fold_left fire due s) = false.
Proof.
  revert s. induction due as [| tm' due IH]; intros s Hin Hcb; simpl in *.
  - contradiction.
  - destruct Hin as [-> | Hin].
    + apply (fire_all_preserves not_sent not_sent_state_only not_sent_callback).
      unfold fire. rewrite Hcb. reflexivity.
    + now apply IH.
Qed.

Lemma tick_ms_revert (tm : timer) (s : page) :
  In tm (timers s) -> timer_cb tm = FormRevert ->
  timer_due tm <= now s + 1 ->
  formSent (tick_ms s) = false.
Proof.
  intros Hin Hcb Hdue. unfold tick_ms.
  apply fire_all_revert with (tm := tm); auto.
  apply List.filter_In. split; auto. unfold is_due. lia.
Qed.

Lemma tick_ms_keeps_later (tm : timer) (s : page) :
  In tm (timers s) -> now s + 1 < timer_due tm -> In tm (timers (tick_ms s)).
Proof.
  intros Hin Hdue. rewrite tick_ms_timers.
  apply list_elem_of_In, list_elem_of_omap. exists tm. split.
  - now apply list_elem_of_In.
  - unfold rearm, is_due. destruct (Z.leb_spec (timer_due tm) (now s + 1)); [lia | reflexivity].
Qed.

(** A pending revert fires by its due time, and from then on the form is
    editable. *)
Lemma pending_revert_fires (n : nat) (tm : timer) (s : page) :
  In tm (timers s) -> timer_cb tm = FormRevert ->
  timer_due tm <= now s + Z.of_nat n -> (0 < n)%nat ->
  formSent (elapse n s) = false.
Proof.
  revert s. induction n as [| n IH]; intros s Hin Hcb Hdue Hn; [lia |].
  cbn [elapse].
  destruct (Z_le_gt_dec (timer_due tm) (now s + 1)) as [Hle | Hgt].
  - apply elapse_not_sent. now apply tick_ms_revert with (tm := tm).
  - apply IH; auto.
    + apply tick_ms_keeps_later; auto. lia.
    + rewrite tick_ms_now. lia.
    + lia.
Qed.

End FormFacts.

Section FormTheorems.
Import Landing.

Lemma fire_all_no_revert (due : list timer) (s : page) :
  (forall tm, In tm due -> timer_cb tm <> FormRevert) ->
  formSent (fold_left fire due s) = formSent s.
Proof.
  revert s. induction due as [| tm due IH]; intros s Hno; simpl; auto.
  rewrite IH by (intros; apply Hno; now right).
  specialize (Hno tm (or_introl eq_refl)).
  unfold fire. destruct (timer_cb tm); try reflexivity. congruence.
Qed.

Lemma tick_ms_before_deadline (D : Z) (s : page) :
  reverts_due_at D s -> now s + 1 < D ->
  formSent (tick_ms s) = formSent s /\ reverts_due_at D (tick_ms s).
Proof.
  intros HD Hlt. split.
  - unfold tick_ms. rewrite fire_all_no_revert; [reflexivity |].
    intros tm Hin Hcb. apply List.filter_In in Hin. destruct Hin as [Hin Hdue].
    unfold is_due in Hdue. apply Z.leb_le in Hdue.
    specialize (HD tm Hin Hcb). lia.
  - intros tm' Hin' Hcb'. rewrite tick_ms_timers in Hin'.
    apply list_elem_of_In, list_elem_of_omap in Hin'.
    destruct Hin' as (tm & Hin & Hre). apply list_elem_of_In in Hin.
    unfold rearm in Hre. destruct (is_due (now s + 1) tm) eqn:Hdue.
    + destruct (timer_repeat tm); [| discriminate].
      inversion Hre; subst tm'. simpl in Hcb'.
      unfold is_due in Hdue. apply Z.leb_le in Hdue.
      specialize (HD tm Hin Hcb'). lia.
    + inversion Hre; subst tm'. now apply HD.
Qed.

(** Until the deadline of the only pending reverts, the flag does not
    move. *)
Lemma elapse_before_deadline (D : Z) (n : nat) (s : page) :
  reverts_due_at D s -> now s + Z.of_nat n < D ->
  formSent (elapse n s) = formSent s.
Proof.
  revert s. induction n as [| n IH]; intros s HD Hlt; [reflexivity |].
  cbn [elapse].
  destruct (tick_ms_before_deadline D s HD ltac:(lia)) as [Hs HD'].
  rewrite IH; auto. rewrite tick_ms_now. lia.
Qed.

Lemma onSubmit_page (e : submit_event) (s : page) :
  let s' := snd (onSubmit e s) in
  formSent s' = true /\
  timers s' = timers s ++ [Timer (nextTimerId s) (now s + 12000) None FormRevert] /\
  formTimer s' = Some (nextTimerId s) /\
  now s' = now s.
Proof. repeat split. Qed.

(** C6: a submission of the rendered form with every required control
    filled runs the handler, which prevents the default navigation,
    gathers every named control's value into one flat record, shows the
    confirmation in place of the form, and adds exactly one timer to the
    table, a revert due 12000 ms later.  With no further interaction the
    form is editable again once 12000 ms have passed; and when no other
    revert was pending, the confirmation stays up until then. *)
Theorem submit_shows_confirmation_then_reverts
        (typed : gmap string string) (s : page) :
  formSent s = false ->
  required_present typed = true ->
  let e := fst (fst (onSubmit (SubmitEvent typed false) s)) in
  let data := snd (fst (onSubmit (SubmitEvent typed false) s)) in
  let s' := handle (Submit typed) s in
  defaultPrevented e = true /\
  (forall c, In c form_controls ->
     data !! control_name c = Some (control_value typed c)) /\
  (forall k, ~ In k (List.map control_name form_controls) -> data !! k = None) /\
  formSent s' = true /\
  render_lead s' = ConfirmationView /\
  timers s' = timers s ++ [Timer (nextTimerId s) (now s + 12000) None FormRevert] /\
  formTimer s' = Some (nextTimerId s) /\
  formSent (wait 12000 s') = false /\
  render_lead (wait 12000 s') = FormView /\
  (pending_reverts s = [] ->
   forall ms, 0 <= ms < 12000 -> formSent (wait ms s') = true).
Proof.
  intros Hform Hreq e data s'.
  assert (Hs' : s' = snd (onSubmit (SubmitEvent typed false) s)).
  { unfold s', handle, submit_form. now rewrite Hform, Hreq. }
  destruct (onSubmit_page (SubmitEvent typed false) s) as (Hsent & Htimers & Href & Hnow).
  rewrite <- Hs' in Hsent, Htimers, Href, Hnow.
  assert (Hrev : formSent (wait 12000 s') = false).
  { unfold wait.
    apply pending_revert_fires
      with (tm := Timer (nextTimerId s) (now s + 12000) None FormRevert).
    - rewrite Htimers. apply List.in_or_app. right. now left.
    - reflexivity.
    - simpl. rewrite Hnow. lia.
    - lia. }
  split; [reflexivity |].
  split; [apply formData_record |].
  split; [apply formData_record |].
  split; [exact Hsent |].
  split; [unfold render_lead; now rewrite Hsent |].
  split; [exact Htimers |].
  split; [exact Href |].
  split; [exact Hrev |].
  split; [unfold render_lead; now rewrite Hrev |].
  intros Hnone ms Hms. unfold wait.
  rewrite elapse_before_deadline with (D := now s + 12000).
  - exact Hsent.
  - intros tm Hin Hcb. rewrite Htimers in Hin.
    apply List.in_app_or in Hin. destruct Hin as [Hin | [<- | []]].
    + exfalso. assert (Hp : In tm (pending_reverts s)).
      { apply List.filter_In. split; auto. now apply bool_decide_eq_true. }
      rewrite Hnone in Hp. contradiction.
    + reflexivity.
  - rewrite Hnow. lia.
Qed.

Lemma submit_shows_confirmation_then_reverts_witness :
  formSent (mount initial_page) = false /\
  required_present sample_lead = true /\
  formSent (wait 12000 (handle (Submit sample_lead) (mount initial_page))) = false.
Proof.
  assert (H1 : formSent (mount initial_page) = false) by reflexivity.
  assert (H2 : required_present sample_lead = true) by (vm_compute; reflexivity).
  split; [exact H1 |]. split; [exact H2 |].
  pose proof (submit_shows_confirmation_then_reverts sample_lead (mount initial_page) H1 H2)
    as H.
  cbv zeta in H. tauto.
Defined.

End FormTheorems.

(** ** A state cell written by one callback only *)

Section OwnedCell.
Import Landing.

Variable A : Type.
Variable cell : page -> A.          (* the state cell *)
Variable cb0 : callback.            (* the only callback that writes it *)
Variable upd : A -> A.              (* its functional update *)

Hypothesis cell_cb0 : forall s, cell (run_callback cb0 s) = upd (cell s).
Hypothesis cell_other :
  forall cb s, cb <> cb0 -> cell (run_callback cb s) = cell s.
Hypothesis cell_timers : forall ts nx s, cell (setTimers ts nx s) = cell s.
Hypothesis cell_now : forall t s, cell (setNow t s) = cell s.
Hypothesis cell_log : forall cb s, cell (logFired cb s) = cell s.

Lemma fire_cell (s : page) (tm : timer) :
  cell (fire s tm) = if runs cb0 tm then upd (cell s) else cell s.
Proof.
  unfold fire, runs. case_bool_decide as Hcb.
  - now rewrite Hcb, cell_cb0, cell_log.
  - now rewrite cell_other, cell_log.
Qed.

Lemma fire_all_cell (due : list timer) (s : page) :
  cell (fold_left fire due s)
  = Nat.iter (List.length (List.filter (runs cb0) due)) upd (cell s).
Proof.
  revert s. induction due as [| tm due IH]; intros s; simpl; [reflexivity |].
  rewrite IH, fire_cell. destruct (runs cb0 tm); [| reflexivity].
  cbn [List.length]. now rewrite Nat.iter_succ_r.
Qed.

Lemma filter_swap (p q : timer -> bool) (l : list timer) :
  List.filter p (List.filter q l) = List.filter q (List.filter p l).
Proof.
  induction l as [| x l IH]; simpl; [reflexivity |].
  destruct (p x) eqn:Hp, (q x) eqn:Hq; simpl; rewrite ?Hp, ?Hq, IH; reflexivity.
Qed.

(** In one millisecond the cell is updated once per due timer of its
    callback. *)
Lemma tick_ms_cell (s : page) :
  cell (tick_ms s)
  = Nat.iter (List.length (List.filter (is_due (now s + 1)) (pending cb0 s)))
             upd (cell s).
Proof.
  unfold tick_ms. rewrite fire_all_cell, cell_now, cell_timers.
  unfold pending. now rewrite filter_swap.
Qed.

Lemma rearm_runs (t : Z) (tm tm' : timer) (cb : callback) :
  rearm t tm = Some tm' -> runs cb tm' = runs cb tm.
Proof.
  unfold rearm. destruct (is_due t tm).
  - destruct (timer_repeat tm); [| discriminate]. now intros [= <-].
  - now intros [= <-].
Qed.

Lemma filter_omap_rearm (t : Z) (cb : callback) (l : list timer) :
  List.filter (runs cb) (omap (rearm t) l)
  = omap (rearm t) (List.filter (runs cb) l).
Proof.
  induction l as [| tm l IH]; [reflexivity |].
  cbn [omap list_omap List.filter].
  destruct (rearm t tm) as [tm' |] eqn:Hre.
  - cbn [List.filter]. rewrite (rearm_runs _ _ _ cb Hre), IH.
    destruct (runs cb tm); [| reflexivity].
    cbn [omap list_omap]. now rewrite Hre.
  - rewrite IH. destruct (runs cb tm); [| reflexivity].
    cbn [omap list_omap]. now rewrite Hre.
Qed.

Lemma tick_ms_pending (cb : callback) (s : page) :
  pending cb (tick_ms s) = omap (rearm (now s + 1)) (pending cb s).
Proof. unfold pending. now rewrite tick_ms_timers, filter_omap_rearm. Qed.

Lemma iter_callback_cell (k : nat) (s : page) :
  cell (Nat.iter k (run_callback cb0) s) = Nat.iter k upd (cell s).
Proof.
  induction k as [| k IH]; [reflexivity |].
  now rewrite !Nat.iter_succ, cell_cb0, IH.
Qed.

(** *** One interval for the callback *)

Variables (id p : Z).

Local Abbreviation sole_interval := (Landing.sole_interval cb0 id p).

Lemma tick_ms_early (due : Z) (s : page) :
  sole_interval due s -> now s + 1 < due ->
  cell (tick_ms s) = cell s /\ sole_interval due (tick_ms s).
Proof.
  unfold sole_interval. intros Hsole Hlt.
  rewrite tick_ms_cell, tick_ms_pending, Hsole.
  cbn [List.filter omap list_omap]. unfold rearm, is_due. cbn [timer_due].
  destruct (Z.leb_spec due (now s + 1)); [lia |]. split; reflexivity.
Qed.

Lemma tick_ms_on_time (due : Z) (s : page) :
  sole_interval due s -> now s + 1 = due ->
  cell (tick_ms s) = upd (cell s) /\ sole_interval (due + p) (tick_ms s).
Proof.
  unfold sole_interval. intros Hsole Heq.
  rewrite tick_ms_cell, tick_ms_pending, Hsole.
  cbn [List.filter omap list_omap]. unfold rearm, is_due. cbn [timer_due].
  destruct (Z.leb_spec due (now s + 1)); [| lia]. split; reflexivity.
Qed.

Lemma elapse_early (n : nat) (due : Z) (s : page) :
  sole_interval due s -> now s + Z.of_nat n < due ->
  cell (elapse n s) = cell s /\ sole_interval due (elapse n s).
Proof.
  revert s. induction n as [| n IH]; intros s Hsole Hlt; [now split |].
  cbn [elapse].
  destruct (tick_ms_early due s Hsole ltac:(lia)) as [Hc Hs].
  destruct (IH (tick_ms s) Hs) as [Hc' Hs'].
  { rewrite tick_ms_now. lia. }
  split; [congruence | exact Hs'].
Qed.

(** The callback runs exactly when its interval is due, and the interval
    is re-armed one period later. *)
Lemma elapse_to_due (n : nat) (due : Z) (s : page) :
  sole_interval due s -> now s + Z.of_nat n = due -> (0 < n)%nat ->
  cell (elapse n s) = upd (cell s) /\ sole_interval (due + p) (elapse n s).
Proof.
  intros Hsole Heq Hn.
  destruct n as [| n]; [lia |].
  replace (S n) with (n + 1)%nat by lia.
  assert (Hsplit : forall a b s0, elapse (a + b) s0 = elapse b (elapse a s0)).
  { induction a as [| a IHa]; intros b s0; [reflexivity |]. cbn [Nat.add elapse]. apply IHa. }
  rewrite Hsplit.
  destruct (elapse_early n due s Hsole ltac:(lia)) as [Hc Hs].
  cbn [elapse].
  destruct (tick_ms_on_time due (elapse n s) Hs) as [Hc' Hs'].
  { rewrite elapse_now. lia. }
  split; [congruence | exact Hs'].
Qed.

Lemma elapse_periods (k : nat) (s : page) :
  0 < p -> sole_interval (now s + p) s ->
  cell (elapse (k * Z.to_nat p) s) = Nat.iter k upd (cell s) /\
  sole_interval (now s + Z.of_nat (S k) * p) (elapse (k * Z.to_nat p) s).
Proof.
  intros Hp. revert s. induction k as [| k IH]; intros s Hsole.
  - cbn [Nat.mul elapse Nat.iter nat_rect]. split; [reflexivity |].
    now replace (now s + Z.of_nat 1 * p) with (now s + p) by lia.
  - assert (Hsplit : forall a b s0, elapse (a + b) s0 = elapse b (elapse a s0)).
    { induction a as [| a IHa]; intros b s0; [reflexivity |]. cbn [Nat.add elapse]. apply IHa. }
    cbn [Nat.mul]. rewrite Hsplit.
    assert (Hp1 : now s + Z.of_nat (Z.to_nat p) = now s + p) by lia.
    assert (Hp2 : (0 < Z.to_nat p)%nat) by lia.
    destruct (elapse_to_due (Z.to_nat p) (now s + p) s Hsole Hp1 Hp2) as [Hc Hs].
    assert (Hnow : now (elapse (Z.to_nat p) s) = now s + p).
    { rewrite elapse_now. lia. }
    destruct (IH (elapse (Z.to_nat p) s)) as [Hc' Hs'].
    { now rewrite Hnow. }
    split.
    + rewrite Hc', Hc. now rewrite Nat.iter_succ_r.
    + rewrite Hnow in Hs'. replace (now s + Z.of_nat (S (S k)) * p)
        with (now s + p + Z.of_nat (S k) * p) by lia. exact Hs'.
Qed.

End OwnedCell.

(** ** Rotations against the clock *)

Section RotationClock.
Import Landing.

Lemma mount_intervals (r : rotation) :
  exists id,
    sole_interval (rotation_tick r) id (rotation_period r)
                  (now (mount initial_page) + rotation_period r)
                  (mount initial_page).
Proof. destruct r; eexists; reflexivity. Qed.

(** After [k] periods on the clock, a rotation has ticked [k] times. *)
Lemma elapse_periods_ticks (r : rotation) (id : Z) (k : nat) (s : page) :
  sole_interval (rotation_tick r) id (rotation_period r)
                (now s + rotation_period r) s ->
  rotation_index r (elapse (k * Z.to_nat (rotation_period r)) s)
  = rotation_index r (ticks r k s).
Proof.
  intros Hsole. unfold ticks.
  destruct r; cbn [rotation_index rotation_tick rotation_period] in *.
  - rewrite (proj1 (elapse_periods Z heroTextIndex HeroTextTick
               (fun i => Js.rem (i + 1) (Js.length heroPhrases))
               ltac:(reflexivity)
               ltac:(intros cb ? ?; destruct cb; [reflexivity | reflexivity | congruence | reflexivity])
               ltac:(reflexivity) ltac:(reflexivity) ltac:(reflexivity)
               id 3000 k s ltac:(lia) Hsole)).
    rewrite (iter_callback_cell Z heroTextIndex HeroTextTick
               (fun i => Js.rem (i + 1) (Js.length heroPhrases))
               ltac:(reflexivity)).
    reflexivity.
  - f_equal.
    rewrite (proj1 (elapse_periods (option string) demoTab DemoTabTick
               (fun d => Js.get tabs (Js.rem (Js.indexOf tabs d + 1) (Js.length tabs)))
               ltac:(reflexivity)
               ltac:(intros cb ? ?; destruct cb; [reflexivity | congruence | reflexivity | reflexivity])
               ltac:(reflexivity) ltac:(reflexivity) ltac:(reflexivity)
               id 4000 k s ltac:(lia) Hsole)).
    rewrite (iter_callback_cell (option string) demoTab DemoTabTick
               (fun d => Js.get tabs (Js.rem (Js.indexOf tabs d + 1) (Js.length tabs)))
               ltac:(reflexivity)).
    reflexivity.
  - rewrite (proj1 (elapse_periods Z quoteIndex QuoteTick
               (fun i => Js.rem (i + 1) (Js.length quotes))
               ltac:(reflexivity)
               ltac:(intros cb ? ?; destruct cb; [congruence | reflexivity | reflexivity | reflexivity])
               ltac:(reflexivity) ltac:(reflexivity) ltac:(reflexivity)
               id 5000 k s ltac:(lia) Hsole)).
    rewrite (iter_callback_cell Z quoteIndex QuoteTick
               (fun i => Js.rem (i + 1) (Js.length quotes))
               ltac:(reflexivity)).
    reflexivity.
Qed.

Lemma mount_in_range : in_range (mount initial_page).
Proof. intros [| |]; vm_compute; split; congruence. Qed.

(** C2: every rotation (hero phrases, demo tabs, quotes) starts at index
    0; after [n] ticks of its timer the index is [n mod length], whether
    the ticks are counted as runs of the timer's callback or as [n]
    periods elapsed on the clock of the mounted page; and along every
    interleaving of timer callbacks and user events (the demo-tab buttons
    select one of the three tabs) each index stays within
    [0, length - 1]. *)
Theorem rotation_index_after_ticks :
  forall r : rotation,
    rotation_index r initial_page = 0 /\
    (forall n : nat,
        rotation_index r (ticks r n initial_page)
        = Z.of_nat n mod rotation_length r) /\
    (forall n : nat,
        rotation_index r (wait (Z.of_nat n * rotation_period r) (mount initial_page))
        = Z.of_nat n mod rotation_length r) /\
    (forall acts : list action,
        Forall possible acts ->
        0 <= rotation_index r (fold_left act acts initial_page)
          <= rotation_length r - 1).
Proof.
  intros r. split; [| split; [| split]].
  - destruct r; reflexivity.
  - intros n. rewrite ticks_index by apply initial_in_range.
    f_equal. destruct r; reflexivity.
  - intros n. destruct (mount_intervals r) as [id Hsole].
    unfold wait.
    replace (Z.to_nat (Z.of_nat n * rotation_period r))
      with (n * Z.to_nat (rotation_period r))%nat by (destruct r; simpl; lia).
    rewrite (elapse_periods_ticks r id n _ Hsole).
    rewrite ticks_index by apply mount_in_range.
    f_equal. destruct r; reflexivity.
  - intros acts Hacts.
    assert (Hin : in_range (fold_left act acts initial_page)).
    { generalize initial_in_range. generalize initial_page.
      induction Hacts as [| a acts Ha _ IH]; intros s Hs; simpl; auto.
      apply IH. now apply act_in_range. }
    specialize (Hin r). lia.
Qed.

Lemma rotation_index_after_ticks_witness :
  let acts := [ User Mount; User (ClickDemoTab "Dirección"); Tick DemoTabTick;
                User (Wait 4000); User ClickHeroNext; Tick QuoteTick ] in
  Forall possible acts /\
  0 <= rotation_index DemoTabs (fold_left act acts initial_page)
    <= rotation_length DemoTabs - 1.
Proof.
  intros acts.
  assert (H : Forall possible acts).
  { unfold acts. repeat (constructor; [simpl; auto |]). constructor. }
  split; [exact H |].
  exact (proj2 (proj2 (proj2 (rotation_index_after_ticks DemoTabs))) _ H).
Defined.

End RotationClock.

(** ** Selections and the rotation timers *)

Section SelectionFacts.
Import Landing.

Lemma elapse_slider_index (sl : slider) (n : nat) (s : page) :
  slider_index sl (elapse n s) = slider_index sl s.
Proof.
  apply (elapse_preserves (fun s' => slider_index sl s' = slider_index sl s)).
  - split; intros; destruct sl; assumption.
  - intros cb s' H. destruct sl, cb; exact H.
  - reflexivity.
Qed.

(** C8 as stated fails on the screenshot slider: after shot 1 is selected
    on the mounted page, no amount of waiting brings the hero index to
    [(1 + 1) % 2]; the page sets up no timer for the sliders. *)
Lemma hero_slider_never_ticks :
  ~ exists n : nat,
      heroIndex (elapse n (handle (ClickHeroDot 1) (mount initial_page)))
      = Js.rem (1 + 1) (Js.length Slider.HERO_SHOTS).
Proof.
  intros [n Hn].
  rewrite (elapse_slider_index HeroSlider n) in Hn.
  vm_compute in Hn. discriminate.
Qed.

(** C8, amended: a click on a demo tab sets the current tab to the
    selected one and leaves the timer table and the clock as they were;
    the tab then stays until the demo interval's unchanged due time, at
    which it advances by one modulo 3 from the selected tab, and the
    interval is re-armed 4000 ms later.  The screenshot sliders have no
    timer: a click on a dot sets the index to the selected one, the timer
    table is untouched, and the index stays whatever time passes. *)
Theorem selection_leaves_timer_running
        (s : page) (t : string) (id due : Z) :
  In t tabs ->
  sole_interval DemoTabTick id 4000 due s ->
  now s < due ->
  let s1 := handle (ClickDemoTab t) s in
  demoTab s1 = Some t /\
  timers s1 = timers s /\
  now s1 = now s /\
  (forall ms, 0 <= ms < due - now s -> demoTab (wait ms s1) = Some t) /\
  rotation_index DemoTabs (wait (due - now s) s1)
  = (Js.indexOf tabs (Some t) + 1) mod rotation_length DemoTabs /\
  sole_interval DemoTabTick id 4000 (due + 4000) (wait (due - now s) s1) /\
  (forall (sl : slider) (i : Z),
      let s2 := handle (click_dot sl i) s in
      slider_index sl s2 = i /\
      timers s2 = timers s /\
      (forall cb, slider_index sl (run_callback cb s2) = i) /\
      (forall ms, slider_index sl (wait ms s2) = i)).
Proof.
  intros Ht Hsole Hlt s1.
  assert (Hsole1 : sole_interval DemoTabTick id 4000 due s1) by exact Hsole.
  pose (upd := fun d => Js.get tabs (Js.rem (Js.indexOf tabs d + 1) (Js.length tabs))).
  assert (Hother : forall cb s0, cb <> DemoTabTick ->
                                 demoTab (run_callback cb s0) = demoTab s0).
  { intros cb ? ?; destruct cb; [reflexivity | congruence | reflexivity | reflexivity]. }
  split; [reflexivity |]. split; [reflexivity |]. split; [reflexivity |].
  split; [| split; [| split]].
  - intros ms Hms. unfold wait.
    rewrite (proj1 (elapse_early (option string) demoTab DemoTabTick upd
               ltac:(reflexivity) Hother
               ltac:(reflexivity) ltac:(reflexivity) ltac:(reflexivity)
               id 4000 (Z.to_nat ms) due s1 Hsole1 ltac:(change (now s1) with (now s); lia))).
    reflexivity.
  - unfold wait. cbn [rotation_index].
    rewrite (proj1 (elapse_to_due (option string) demoTab DemoTabTick upd
               ltac:(reflexivity) Hother
               ltac:(reflexivity) ltac:(reflexivity) ltac:(reflexivity)
               id 4000 (Z.to_nat (due - now s)) due s1 Hsole1
               ltac:(change (now s1) with (now s); lia) ltac:(lia))).
    change (demoTab s1) with (Some t). unfold upd.
    simpl in Ht. destruct Ht as [<- | [<- | [<- | []]]]; reflexivity.
  - unfold wait.
    apply (elapse_to_due (option string) demoTab DemoTabTick upd
             ltac:(reflexivity) Hother
             ltac:(reflexivity) ltac:(reflexivity) ltac:(reflexivity)
             id 4000 (Z.to_nat (due - now s)) due s1 Hsole1
             ltac:(change (now s1) with (now s); lia) ltac:(lia)).
  - intros sl i s2.
    assert (Hi : slider_index sl s2 = i) by (destruct sl; reflexivity).
    split; [exact Hi |]. split; [destruct sl; reflexivity |]. split.
    + intros cb. rewrite <- Hi. destruct sl, cb; reflexivity.
    + intros ms. unfold wait. now rewrite elapse_slider_index.
Qed.

Lemma selection_leaves_timer_running_witness :
  let s := wait 1500 (mount initial_page) in
  In "Consultorio" tabs /\
  sole_interval DemoTabTick 2 4000 4000 s /\
  now s < 4000 /\
  demoTab (wait 2499 (handle (ClickDemoTab "Consultorio") s)) = Some "Consultorio" /\
  rotation_index DemoTabs (wait 2500 (handle (ClickDemoTab "Consultorio") s)) = 2.
Proof.
  intros s.
  assert (H1 : In "Consultorio" tabs) by (simpl; auto).
  assert (H2 : sole_interval DemoTabTick 2 4000 4000 s) by (vm_compute; reflexivity).
  assert (H3 : now s < 4000) by (vm_compute; reflexivity).
  pose proof (selection_leaves_timer_running s "Consultorio" 2 4000 H1 H2 H3) as H.
  cbv zeta in H. destruct H as (_ & _ & _ & Hstay & Hnext & _).
  split; [exact H1 |]. split; [exact H2 |]. split; [exact H3 |]. split.
  - apply Hstay. replace (now s) with 1500 by (vm_compute; reflexivity). lia.
  - replace (4000 - now s) with 2500 in Hnext by (vm_compute; reflexivity).
    exact Hnext.
Defined.

End SelectionFacts.

(** ** Resubmission within the revert delay *)

Section ResubmissionFacts.
Import Landing.

(** With one submission, the revert timer is the only one, and tearing
    the page down clears it. *)
Lemma single_submission_one_revert :
  let s := run [Mount; Submit sample_lead] initial_page in
  List.map timer_due (pending_reverts s) = [12000] /\
  pending_reverts (handle Unmount s) = [] /\
  timers (handle Unmount s) = [].
Proof. vm_compute. repeat split. Qed.

(** C1 at a submission, a return to the form after 5 s, and a second
    submission 1 s later: the handler schedules the second revert without
    clearing the first, so two reverts are pending, due at 12 s and 18 s;
    the ref holds the second only.  The first fires 6 s after the second
    submission and takes the confirmation down early, both fire in the
    end, and tearing the page down clears only the one in the ref. *)
Theorem resubmission_leaves_two_reverts :
  let s := run [ Mount; Submit sample_lead; Wait 5000; ClickEnviarOtra;
                 Wait 1000; Submit sample_lead ] initial_page in
  now s = 6000 /\
  formSent s = true /\
  List.map timer_due (pending_reverts s) = [12000; 18000] /\
  List.map timer_id (pending_reverts s) = [4; 5] /\
  formTimer s = Some 5 /\
  formSent (wait 5999 s) = true /\
  formSent (wait 6000 s) = false /\
  reverts_fired (wait 12000 s) = 2%nat /\
  List.map timer_due (pending_reverts (handle Unmount s)) = [12000].
Proof. vm_compute. repeat split. Qed.

End ResubmissionFacts.

(** ** The animated counter *)

Section CounterFacts.
Import JsNumber AnimatedCounter.

Variable toLocaleString : number -> string.
Variable value : prop_value.
Variable suffix : string.

Local Abbreviation step := (AnimatedCounter.step toLocaleString value suffix).
Local Abbreviation run := (AnimatedCounter.run toLocaleString value suffix).
Local Abbreviation initial := (AnimatedCounter.initial suffix).

Lemma run_snoc (evs : list event) (ev : event) :
  run (evs ++ [ev]) = step (run evs) ev.
Proof. unfold AnimatedCounter.run. now rewrite fold_left_app. Qed.

(** Nothing has happened to a counter that was never in view. *)
Lemma step_unseen (c : counter) (ev : event) :
  c = initial -> ev <> Intersect true -> step c ev = initial.
Proof.
  intros -> Hev. destruct ev as [[|] | latest |]; try reflexivity. congruence.
Qed.

Lemma run_unseen (evs : list event) :
  Forall (fun ev => ev <> Intersect true) evs -> run evs = initial.
Proof.
  unfold AnimatedCounter.run. generalize (eq_refl initial).
  generalize initial at 1 3 as c.
  intros c Hc Hevs. revert c Hc.
  induction Hevs as [| ev evs Hev _ IH]; intros c Hc; simpl; [exact Hc |].
  apply IH. now apply step_unseen.
Qed.

(** The flag only ever rises, and [motionValue.set] has been called once
    when it is up and never when it is down. *)
Lemma step_sets (c : counter) (ev : event) :
  sets c = (if isInView c then 1 else 0)%nat ->
  motionValue c = (if isInView c then numericValue value else of_Z 0) ->
  sets (step c ev) = (if isInView (step c ev) then 1 else 0)%nat /\
  motionValue (step c ev)
  = (if isInView (step c ev) then numericValue value else of_Z 0).
Proof.
  intros Hs Hm. destruct c as [iv mv an tx st]. simpl in *.
  destruct ev as [v | latest |]; simpl.
  - destruct iv, v; simpl; subst; auto.
  - destruct an; simpl; auto.
  - destruct an; simpl; auto.
Qed.

Lemma run_sets (evs : list event) :
  sets (run evs) = (if isInView (run evs) then 1 else 0)%nat /\
  motionValue (run evs)
  = (if isInView (run evs) then numericValue value else of_Z 0).
Proof.
  induction evs as [| ev evs IH] using rev_ind.
  - split; reflexivity.
  - rewrite run_snoc. destruct IH as [Hs Hm]. now apply step_sets.
Qed.

Lemma step_seen (c : counter) (visible : bool) :
  isInView c = true -> step c (Intersect visible) = c.
Proof. destruct c as [iv mv an tx st]. simpl. now intros ->. Qed.

End CounterFacts.

Section CounterTheorems.
Import JsNumber AnimatedCounter.

(** C3: until the span is first reported visible, whatever else is
    reported, the counter shows "0" followed by the suffix and no
    animation has been started; an animation is started at most once over
    any run; and once the counter has been in view, a visibility report
    changes nothing. *)
Theorem counter_zero_until_seen_then_once
        (toLocaleString : number -> string) (value : prop_value) (suffix : string) :
  (forall evs,
      Forall (fun ev => ev <> Intersect true) evs ->
      textContent (run toLocaleString value suffix evs) = ("0" ++ suffix)%string /\
      sets (run toLocaleString value suffix evs) = 0%nat /\
      animating (run toLocaleString value suffix evs) = false) /\
  (forall evs, (sets (run toLocaleString value suffix evs) <= 1)%nat) /\
  (forall evs visible,
      isInView (run toLocaleString value suffix evs) = true ->
      run toLocaleString value suffix (evs ++ [Intersect visible])
      = run toLocaleString value suffix evs).
Proof.
  split; [| split].
  - intros evs Hevs. rewrite run_unseen by exact Hevs. repeat split.
  - intros evs. rewrite (proj1 (run_sets toLocaleString value suffix evs)).
    destruct (isInView _); lia.
  - intros evs visible Hseen. rewrite run_snoc. now apply step_seen.
Qed.

Lemma counter_zero_until_seen_then_once_witness :
  let evs := [Intersect false; Change (of_Z 40); Rest; Intersect false] in
  Forall (fun ev => ev <> Intersect true) evs /\
  textContent (run (fun _ => "?"%string) (VString "92%") "%" evs) = "0%"%string.
Proof.
  intros evs.
  assert (H : Forall (fun ev => ev <> Intersect true) evs).
  { unfold evs. repeat (constructor; [discriminate |]). constructor. }
  split; [exact H |].
  exact (proj1 (proj1 (counter_zero_until_seen_then_once
                         (fun _ => "?"%string) (VString "92%") "%") evs H)).
Defined.


(** What the extraction does to a few inputs: a sign is dropped with the
    other characters, a second dot ends the number, and a string with no
    digit gives [NaN]. *)
Lemma numericValue_examples :
  numericValue (VString "18 min") = of_Z 18 /\
  numericValue (VString "-7") = of_Z 7 /\
  numericValue (VString "1.5.3") = Finite (3 # 2) /\
  numericValue (VString "n/a") = NaN.
Proof. vm_compute. repeat split. Qed.


End CounterTheorems.

(** ** The circular gauge *)

Section GaugeTheorems.
Import CircularMetric.






End GaugeTheorems.

(** ** The photo tile *)

Section TileTheorems.
Import PhotoTile.

Lemma toneMap_total (t : tone) : is_Some (toneMap !! tone_key t).
Proof. destruct t; vm_compute; eauto. Qed.

Lemma gradient_class_inj (t1 t2 : tone) :
  gradient_class t1 = gradient_class t2 -> t1 = t2.
Proof. destruct t1, t2; vm_compute; congruence. Qed.

(** C7: for each tone (blue when none is given), when the image
    reference is absent or empty, or the image has failed to load, the
    tile's image region holds the placeholder of that tone and no image
    element: the gradient [toneMap] gives the tone, then the texture, then
    the fade.  Two tones never share a placeholder.  The fallback is a
    fallback: with a reference and no failure the image itself is shown;
    and after [onError] the placeholder is shown whatever the reference. *)
Theorem photo_tile_falls_back
        (title desc : string) (t : option tone) (src : option string)
        (imgError : bool) :
  src = None \/ src = Some ""%string \/ imgError = true ->
  render (Props title desc t src) imgError
  = [ Div ("absolute inset-0 bg-gradient-to-br "
           ++ match t with
              | Some violet => "from-slate-900/10 via-purple-900/10 to-fuchsia-900/10"
              | Some amber => "from-slate-900/10 via-orange-900/10 to-amber-900/10"
              | Some blue | None => "from-slate-900/10 via-blue-900/10 to-cyan-900/10"
              end) None;
      Div "absolute inset-0 opacity-[0.25]"
          (Some "radial-gradient(circle at 20% 10%, rgba(0,0,0,0.14) 0, rgba(0,0,0,0) 45%), radial-gradient(circle at 80% 35%, rgba(0,0,0,0.12) 0, rgba(0,0,0,0) 40%), radial-gradient(circle at 35% 90%, rgba(0,0,0,0.10) 0, rgba(0,0,0,0) 42%)"%string);
      Div "absolute inset-0 bg-gradient-to-t from-white/90 via-white/35 to-transparent dark:from-zinc-900 dark:via-zinc-900/40" None ] /\
  forallb (fun l => negb (is_img l)) (render (Props title desc t src) imgError) = true /\
  (forall t1 t2 : tone,
      render (Props title desc (Some t1) src) imgError
      = render (Props title desc (Some t2) src) imgError -> t1 = t2) /\
  (forall s : string, s <> ""%string ->
      render (Props title desc t (Some s)) initial_imgError
      = [ Img s title;
          Div "absolute inset-0 bg-gradient-to-t from-white/92 via-white/30 to-transparent dark:from-zinc-900/95 dark:via-zinc-900/50" None ]) /\
  (forall src' : option string,
      forallb (fun l => negb (is_img l))
              (render (Props title desc t src') (onError initial_imgError)) = true).
Proof.
  intros H.
  assert (Hshow : (truthy src && negb imgError)%bool = false).
  { destruct H as [-> | [-> | ->]]; [reflexivity | reflexivity | apply andb_false_r]. }
  assert (Hr : render (Props title desc t src) imgError
               = [ Div (gradient_class (default blue t)) None;
                   Div "absolute inset-0 opacity-[0.25]" (Some texture);
                   Div "absolute inset-0 bg-gradient-to-t from-white/90 via-white/35 to-transparent dark:from-zinc-900 dark:via-zinc-900/40" None ]).
  { unfold render. cbn [imageSrc]. now rewrite Hshow. }
  split; [| split; [| split; [| split]]].
  - rewrite Hr. destruct t as [[| |] |]; reflexivity.
  - now rewrite Hr.
  - assert (Hg : forall t0,
              render (Props title desc (Some t0) src) imgError
              = [ Div (gradient_class t0) None;
                  Div "absolute inset-0 opacity-[0.25]" (Some texture);
                  Div "absolute inset-0 bg-gradient-to-t from-white/90 via-white/35 to-transparent dark:from-zinc-900 dark:via-zinc-900/40" None ]).
    { intros t0. unfold render. cbn [imageSrc]. now rewrite Hshow. }
    intros t1 t2 Heq. rewrite !Hg in Heq. apply gradient_class_inj. congruence.
  - intros s Hs. unfold render, initial_imgError. cbn [imageSrc PhotoTile.title truthy].
    apply String.eqb_neq in Hs. now rewrite Hs.
  - intros src'. unfold render, onError. cbn [imageSrc].
    now rewrite andb_false_r.
Qed.

Lemma photo_tile_falls_back_witness :
  (Some "/photos/historia-clinica-incompleta.jpg"%string = None
   \/ Some "/photos/historia-clinica-incompleta.jpg"%string = Some ""%string
   \/ onError initial_imgError = true) /\
  forallb (fun l => negb (is_img l))
    (render (Props "Historia clínica incompleta." "Cada consulta empieza de cero."
                   (Some amber) (Some "/photos/historia-clinica-incompleta.jpg"))
            (onError initial_imgError)) = true.
Proof.
  assert (H : Some "/photos/historia-clinica-incompleta.jpg"%string = None
              \/ Some "/photos/historia-clinica-incompleta.jpg"%string = Some ""%string
              \/ onError initial_imgError = true)
    by (right; right; reflexivity).
  split; [exact H |].
  exact (proj1 (proj2 (photo_tile_falls_back
                         "Historia clínica incompleta." "Cada consulta empieza de cero."
                         (Some amber) (Some "/photos/historia-clinica-incompleta.jpg")
                         (onError initial_imgError) H))).
Defined.

End TileTheorems.

(** ** The theme toggle *)

Section ToggleTheorems.
Import ThemeToggle.

(** C9: whatever the theme, the toggle renders nothing while [mounted] is
    false, as it is on the first render; after the mount effect it renders
    the three buttons for light, dark and system, each with the active
    styling exactly when the theme is its own, so at most one is active. *)
Theorem theme_toggle_null_until_mounted (theme : option string) :
  render theme initial_mounted = None /\
  render theme false = None /\
  exists l d y,
    render theme (mount_effect initial_mounted) = Some [l; d; y] /\
    sets_theme l = "light" /\ sets_theme d = "dark" /\ sets_theme y = "system" /\
    (is_active l = true <-> theme = Some "light") /\
    (is_active d = true <-> theme = Some "dark") /\
    (is_active y = true <-> theme = Some "system") /\
    (List.length (List.filter is_active [l; d; y]) <= 1)%nat.
Proof.
  split; [reflexivity |]. split; [reflexivity |].
  unfold render, mount_effect, button_for. cbn [negb].
  do 3 eexists. split; [reflexivity |].
  split; [reflexivity |]. split; [reflexivity |]. split; [reflexivity |].
  unfold is_active. cbn [className].
  destruct (decide (theme = Some "light")) as [Hl | Hl];
    destruct (decide (theme = Some "dark")) as [Hd | Hd];
    destruct (decide (theme = Some "system")) as [Hs | Hs];
    try (exfalso; congruence);
    vm_compute; repeat split; intros; try congruence; try lia.
Qed.

End ToggleTheorems.

(** ** Class names *)

Section ClassNameFacts.
Import ThemeToggle.

(** The entries [cn] keeps: the non-empty strings. *)
Local Abbreviation kept :=
  (omap (fun c : option string =>
           match c with
           | Some s => if String.eqb s "" then None else Some s
           | None => None
           end)).

Lemma kept_nonempty (classes : list (option string)) :
  Forall (fun s => s <> ""%string) (kept classes).
Proof.
  induction classes as [| c classes IH]; [constructor |].
  cbn [omap list_omap]. destruct c as [s |]; [| exact IH].
  destruct (String.eqb_spec s ""); [exact IH |]. now constructor.
Qed.

Lemma concat_empty_iff (l : list string) :
  Forall (fun s => s <> ""%string) l ->
  (String.concat " " l = ""%string <-> l = []).
Proof.
  intros Hl. split; [| now intros ->].
  destruct Hl as [| x l Hx Hl]; [reflexivity |].
  cbn [String.concat]. destruct l as [| y l].
  - intros ->. congruence.
  - destruct x; [congruence | discriminate].
Qed.

Lemma string_app_assoc (a b c : string) :
  ((a ++ b) ++ c = a ++ b ++ c)%string.
Proof.
  induction a as [| x a IH]; [reflexivity |].
  change (String x ((a ++ b) ++ c) = String x (a ++ b ++ c))%string.
  now rewrite IH.
Qed.

Lemma concat_app (l1 l2 : list string) :
  l1 <> [] -> l2 <> [] ->
  String.concat " " (l1 ++ l2)
  = (String.concat " " l1 ++ " " ++ String.concat " " l2)%string.
Proof.
  intros H1 H2. induction l1 as [| x l1 IH]; [congruence |].
  destruct l1 as [| y l1].
  - cbn [List.app String.concat]. destruct l2; [congruence | reflexivity].
  - change ((x :: y :: l1) ++ l2) with (x :: ((y :: l1) ++ l2)).
    change (String.concat " " (x :: (y :: l1) ++ l2))
      with (x ++ " " ++ String.concat " " ((y :: l1) ++ l2))%string.
    rewrite IH by discriminate.
    change (String.concat " " (x :: y :: l1))
      with (x ++ " " ++ String.concat " " (y :: l1))%string.
    now rewrite !string_app_assoc.
Qed.

Lemma cn_empty_iff (classes : list (option string)) :
  cn classes = ""%string <-> kept classes = [].
Proof. unfold cn. apply concat_empty_iff, kept_nonempty. Qed.

(** X4: [cn] ignores the falsy entries ([false], [null], [undefined], "")
    wherever they stand, gives "" when nothing is left, and joins two
    groups of classes with a single space exactly when both contribute
    something; so a component whose optional [className] is absent or empty
    carries its base classes unchanged. *)
Theorem cn_joins_truthy_classes (l1 l2 : list (option string)) (base : string) :
  cn (l1 ++ None :: l2) = cn (l1 ++ l2) /\
  cn (l1 ++ Some ""%string :: l2) = cn (l1 ++ l2) /\
  cn (l1 ++ l2)
  = (if String.eqb (cn l1) "" then cn l2
     else if String.eqb (cn l2) "" then cn l1
     else (cn l1 ++ " " ++ cn l2)%string) /\
  cn [] = ""%string /\
  cn [Some base; None] = base /\
  cn [Some base; Some ""%string] = base.
Proof.
  split; [| split; [| split; [| split; [| split]]]].
  - unfold cn. now rewrite !omap_app.
  - unfold cn. now rewrite !omap_app.
  - destruct (String.eqb_spec (cn l1) "") as [H1 | H1].
    + apply cn_empty_iff in H1. unfold cn. now rewrite omap_app, H1.
    + destruct (String.eqb_spec (cn l2) "") as [H2 | H2].
      * apply cn_empty_iff in H2. unfold cn. now rewrite omap_app, H2, app_nil_r.
      * unfold cn. rewrite omap_app. apply concat_app.
        -- intros H. apply H1. now apply cn_empty_iff.
        -- intros H. apply H2. now apply cn_empty_iff.
  - reflexivity.
  - unfold cn. cbn [omap list_omap]. destruct (String.eqb base ""%string) eqn:Hb.
    + apply String.eqb_eq in Hb. now subst.
    + reflexivity.
  - unfold cn. cbn [omap list_omap]. destruct (String.eqb base ""%string) eqn:Hb.
    + apply String.eqb_eq in Hb. now subst.
    + reflexivity.
Qed.

End ClassNameFacts.

(** ** The header *)

Section NavFacts.
Import Nav.

Lemma getElementById_spec (id : string) :
  (In id section_ids -> getElementById id = Some id) /\
  (~ In id section_ids -> getElementById id = None).
Proof.
  unfold getElementById. split.
  - intros Hin. destruct (List.find (String.eqb id) section_ids) as [e |] eqn:Hf.
    + apply List.find_some in Hf. destruct Hf as [_ He].
      apply String.eqb_eq in He. now subst.
    + exfalso. pose proof (List.find_none _ _ Hf id Hin) as Hn.
      now rewrite String.eqb_refl in Hn.
  - intros Hnin. destruct (List.find (String.eqb id) section_ids) as [e |] eqn:Hf;
      [| reflexivity].
    apply List.find_some in Hf. destruct Hf as [Hin He].
    apply String.eqb_eq in He. now subst.
Qed.

(** X1: [scrollToId] scrolls to the element with the given id and does
    nothing when the page has none.  Of the menu items, every one but
    "App real" asks for the id of a section of the page; "App real" asks
    for "appreal", which no element carries (the section is "app"), so that
    button scrolls nowhere. *)
Theorem menu_item_scroll_target (id item : string) :
  In item mobile_items ->
  (In id section_ids -> scrollToId id = Some id) /\
  (~ In id section_ids -> scrollToId id = None) /\
  (In item desktop_items \/ item = "Contacto"%string) /\
  (item <> "App real"%string -> click_desktop_item item = Some (anchor item)) /\
  (item = "App real"%string ->
   anchor item = "appreal"%string /\ click_desktop_item item = None).
Proof.
  intros Hitem.
  split; [apply getElementById_spec |]. split; [apply getElementById_spec |].
  simpl in Hitem.
  destruct Hitem as [<- | [<- | [<- | [<- | [<- | [<- | []]]]]]];
    (split; [simpl; auto 8 |]); split; intros H;
    try discriminate H; try congruence; vm_compute; auto.
Qed.

Lemma menu_item_scroll_target_witness :
  In "App real"%string mobile_items /\
  click_desktop_item "App real" = None /\
  click_desktop_item "Impacto" = Some "impacto"%string.
Proof.
  assert (H1 : In "App real"%string mobile_items) by (simpl; auto).
  assert (H2 : In "Impacto"%string mobile_items) by (simpl; auto).
  split; [exact H1 |]. split.
  - apply (menu_item_scroll_target "top" "App real" H1). reflexivity.
  - apply (menu_item_scroll_target "top" "Impacto" H2). discriminate.
Defined.

(** A button of the mobile menu scrolls where the desktop button of
    the same item does and leaves the menu closed, whether or not its
    anchor exists; the toggle undoes itself; and the menu starts closed. *)
Theorem mobile_menu_closes_on_item (item : string) (mobileMenuOpen : bool) :
  snd (click_mobile_item item mobileMenuOpen) = false /\
  fst (click_mobile_item item true) = click_desktop_item item /\
  fst (click_mobile_item item false) = None /\
  toggle_menu (toggle_menu mobileMenuOpen) = mobileMenuOpen /\
  snd (click_mobile_item item (toggle_menu initial_menu)) = initial_menu.
Proof. destruct mobileMenuOpen; repeat split. Qed.

End NavFacts.

(** ** The shot on screen *)

Section ShotFacts.
Import Slider Landing Shots.

Lemma rendered_possible (ev : event) : rendered ev -> possible (User ev).
Proof. destruct ev; simpl; auto. Qed.

Lemma handle_sliders_in_range (ev : event) (s : page) :
  rendered ev -> sliders_in_range s -> sliders_in_range (handle ev s).
Proof.
  intros Hev H sl. pose proof (H HeroSlider) as Hh. pose proof (H AppSlider) as Ha.
  cbn [slider_index slider_length] in Hh, Ha.
  destruct ev; cbn [handle];
    try (destruct sl; cbn [slider_index slider_length]; assumption).
  - (* Unmount *)
    unfold unmount, clearRef, formTimer_cleanup.
    repeat match goal with
           | |- context [match ?x with _ => _ end] => destruct x
           end; destruct sl; assumption.
  - destruct sl; [| exact Ha]. apply prev_update_range. exact Hh.
  - destruct sl; [| exact Ha]. apply next_update_range; [reflexivity | lia].
  - destruct sl; [exact Hh |]. apply prev_update_range. exact Ha.
  - destruct sl; [exact Hh |]. apply next_update_range; [reflexivity | lia].
  - unfold submit_form. destruct (formSent s); [destruct sl; assumption |].
    destruct (required_present typed); destruct sl; assumption.
  - destruct (formSent s); destruct sl; assumption.
  - unfold wait. rewrite elapse_slider_index. apply H.
Qed.

Lemma run_sliders_in_range (evs : list event) (s : page) :
  Forall rendered evs -> sliders_in_range s -> sliders_in_range (run evs s).
Proof.
  intros Hevs. revert s. unfold run.
  induction Hevs as [| ev evs Hev _ IH]; intros s Hs; simpl; auto.
  apply IH. now apply handle_sliders_in_range.
Qed.

Lemma run_in_range (evs : list event) (s : page) :
  Forall rendered evs -> in_range s -> in_range (run evs s).
Proof.
  intros Hevs. revert s. unfold run.
  induction Hevs as [| ev evs Hev _ IH]; intros s Hs; simpl; auto.
  apply IH. apply handle_in_range; auto. now apply rendered_possible.
Qed.

Lemma initial_sliders_in_range : sliders_in_range initial_page.
Proof. intros [|]; vm_compute; split; congruence. Qed.

Lemma active_shot_in_range (sl : slider) (s : page) :
  0 <= slider_index sl s < slider_length sl ->
  active_shot sl s = Js.get (shots_of sl) (slider_index sl s) /\
  is_Some (active_shot sl s).
Proof.
  intros Hi. destruct sl; cbn [slider_index slider_length] in Hi;
    unfold active_shot, shots_of; rewrite rem_is_mod, Z.mod_small by lia.
  - split; [reflexivity |].
    assert (Hc : heroIndex s = 0 \/ heroIndex s = 1)
      by (change (Js.length HERO_SHOTS) with 2 in Hi; lia).
    destruct Hc as [-> | ->]; vm_compute; eauto.
  - split; [reflexivity |].
    assert (Hc : shotIndex s = 0 \/ shotIndex s = 1 \/ shotIndex s = 2)
      by (change (Js.length APP_SHOTS) with 3 in Hi; lia).
    destruct Hc as [-> | [-> | ->]]; vm_compute; eauto.
Qed.

(** X2: on every page reached from the first render by events the page
    can receive (the dot and tab buttons carry the indices of their own
    lists), both slider indices are within their lists, so the shot read
    for the phone frame, [SHOTS[index % SHOTS.length]], is defined and is
    the shot at the index. *)
Theorem active_shot_is_defined (evs : list event) (sl : slider) :
  Forall rendered evs ->
  let s := run evs initial_page in
  0 <= slider_index sl s < slider_length sl /\
  active_shot sl s = Js.get (shots_of sl) (slider_index sl s) /\
  is_Some (active_shot sl s).
Proof.
  intros Hevs s.
  assert (Hr : 0 <= slider_index sl s < slider_length sl).
  { apply run_sliders_in_range; auto. apply initial_sliders_in_range. }
  split; [exact Hr |]. now apply active_shot_in_range.
Qed.

Lemma active_shot_is_defined_witness :
  let evs := [Mount; ClickShotDot 2; ClickShotNext; Wait 3000; ClickShotPrev] in
  Forall rendered evs /\
  is_Some (active_shot AppSlider (run evs initial_page)).
Proof.
  intros evs.
  assert (H : Forall rendered evs).
  { unfold evs. repeat (constructor; [simpl; auto; try (vm_compute; split; congruence) |]).
    constructor. }
  split; [exact H |].
  exact (proj2 (proj2 (active_shot_is_defined evs AppSlider H))).
Defined.

(** A negative index, which no event produces, would read no shot: the
    remainder keeps the sign of the index. *)
Lemma active_shot_negative_index (s : page) :
  heroIndex s = -1 -> active_shot HeroSlider s = None.
Proof. intros H. unfold active_shot. now rewrite H. Qed.

Lemma mapi_from_length {A B} (f : A -> Z -> B) (arr : list A) (i : Z) :
  List.length (mapi_from f arr i) = List.length arr.
Proof.
  revert i. induction arr as [| x arr IH]; intros i; simpl; [reflexivity |].
  now rewrite IH.
Qed.

Lemma count_none {A} (arr : list A) (g : Z -> bool) (i : Z) :
  (forall j, i <= j < i + Z.of_nat (List.length arr) -> g j = false) ->
  count_true (mapi_from (fun _ j => g j) arr i) = 0%nat.
Proof.
  revert i. induction arr as [| x arr IH]; intros i Hg; [reflexivity |].
  cbn [mapi_from]. unfold count_true in *. cbn [List.filter].
  rewrite Hg by (cbn [List.length]; lia).
  apply IH. intros j Hj. apply Hg. cbn [List.length]. lia.
Qed.

(** Among the marks of a list of length [n], the one at position [k] is
    set and no other. *)
Lemma count_one_at {A} (arr : list A) (k i : Z) :
  i <= k < i + Z.of_nat (List.length arr) ->
  count_true (mapi_from (fun _ j => k =? j) arr i) = 1%nat.
Proof.
  revert i. induction arr as [| x arr IH]; intros i Hk.
  - cbn [List.length] in Hk. lia.
  - cbn [mapi_from]. unfold count_true in *. cbn [List.filter].
    destruct (Z.eqb_spec k i) as [-> | Hne].
    + cbn [List.length]. f_equal.
      apply (count_none arr (fun j => i =? j)). intros j Hj.
      apply Z.eqb_neq. lia.
    + apply IH. cbn [List.length] in Hk. lia.
Qed.

(** X3: on every page reached from the first render by events the page
    can receive, exactly one hero dot is filled, exactly one app-shot tab,
    one quote bar and one demo tab are highlighted, and the filled hero dot
    is the one at the hero index. *)
Theorem exactly_one_mark (evs : list event) :
  Forall rendered evs ->
  let s := run evs initial_page in
  count_true (hero_dots s) = 1%nat /\
  count_true (app_tabs s) = 1%nat /\
  count_true (quote_bars s) = 1%nat /\
  count_true (demo_tabs s) = 1%nat /\
  Js.get (hero_dots s) (heroIndex s) = Some true.
Proof.
  intros Hevs s.
  pose proof (run_sliders_in_range evs initial_page Hevs initial_sliders_in_range) as Hsl.
  pose proof (run_in_range evs initial_page Hevs initial_in_range) as Hrot.
  fold s in Hsl, Hrot.
  pose proof (Hsl HeroSlider) as Hh. pose proof (Hsl AppSlider) as Ha.
  apply in_range_elim in Hrot. destruct Hrot as (Ht & _ & Hq).
  cbn [slider_index slider_length] in Hh, Ha.
  change (Js.length HERO_SHOTS) with 2 in Hh.
  change (Js.length APP_SHOTS) with 3 in Ha.
  split; [| split; [| split; [| split]]].
  - unfold hero_dots, mapi. apply count_one_at. simpl. lia.
  - unfold app_tabs, mapi. apply count_one_at.
    rewrite rem_is_mod by (try reflexivity; lia).
    change (Js.length APP_SHOTS) with 3. rewrite Z.mod_small by lia. simpl. lia.
  - unfold quote_bars, mapi.
    replace (mapi_from (fun (_ : quote) (i : Z) => i =? quoteIndex s) quotes 0)
      with (mapi_from (fun (_ : quote) (i : Z) => quoteIndex s =? i) quotes 0).
    + apply count_one_at. simpl. lia.
    + simpl. now rewrite !(Z.eqb_sym (quoteIndex s)).
  - unfold demo_tabs. simpl in Ht.
    destruct Ht as [<- | [<- | [<- | []]]]; reflexivity.
  - unfold hero_dots, mapi.
    assert (Hc : heroIndex s = 0 \/ heroIndex s = 1) by lia.
    destruct Hc as [-> | ->]; reflexivity.
Qed.

Lemma exactly_one_mark_witness :
  let evs := [Mount; ClickHeroDot 1; ClickDemoTab "Consultorio"; Wait 4500] in
  Forall rendered evs /\
  count_true (hero_dots (run evs initial_page)) = 1%nat.
Proof.
  intros evs.
  assert (H : Forall rendered evs).
  { unfold evs. repeat (constructor; [simpl; auto; try (vm_compute; split; congruence) |]).
    constructor. }
  split; [exact H |].
  exact (proj1 (exactly_one_mark evs H)).
Defined.

End ShotFacts.

(** ** The phone frame *)

Section PhoneFrameFacts.
Import PhoneFrame.

Lemma shows_image_eq (f : frame) :
  shows_image f = (truthy (src (frame_props f)) && negb (imgError f))%bool.
Proof.
  unfold shows_image, render. cbn [view_screen].
  now destruct (truthy (src (frame_props f)) && negb (imgError f))%bool.
Qed.

Lemma onError_hides (f : frame) : shows_image (onError f) = false.
Proof.
  rewrite shows_image_eq. unfold onError.
  destruct (view_screen (render (frame_props f) (imgError f))) eqn:Hv.
  - cbn [imgError]. apply andb_false_r.
  - rewrite <- shows_image_eq. unfold shows_image. now rewrite Hv.
Qed.

Lemma onError_props (f : frame) : frame_props (onError f) = frame_props f.
Proof.
  unfold onError. now destruct (view_screen (render (frame_props f) (imgError f))).
Qed.

(** The events that leave [src] as it is in [f]. *)
Local Abbreviation same_src s0 :=
  (fun ev => match ev with
             | Error => True
             | Render p => src p = s0
             end).

Lemma hidden_while_same_src (evs : list event) (f : frame) :
  shows_image f = false ->
  Forall (same_src (src (frame_props f))) evs ->
  shows_image (fold_left step evs f) = false /\
  src (frame_props (fold_left step evs f)) = src (frame_props f).
Proof.
  intros Hf Hevs. revert f Hf Hevs.
  induction evs as [| ev evs IH]; intros f Hf Hevs; [now split |].
  inversion Hevs as [| ? ? Hev Hevs']; subst. cbn [fold_left].
  assert (Hstep : shows_image (step f ev) = false
                  /\ src (frame_props (step f ev)) = src (frame_props f)).
  { destruct ev as [| p]; cbn [step].
    - split; [apply onError_hides | now rewrite onError_props].
    - unfold rerender. destruct (decide (src p = src (frame_props f))); [| contradiction].
      split; [| assumption].
      rewrite shows_image_eq in *. cbn [frame_props imgError]. now rewrite Hev. }
  destruct Hstep as [Hs Hp].
  destruct (IH (step f ev) Hs) as [IH1 IH2].
  { now rewrite Hp. }
  split; [exact IH1 | congruence].
Qed.

(** X5: a frame mounted on a screenshot shows it when a reference is
    given, with "Captura de Zanoo" as its text when no [alt] is given, and
    shows the replica otherwise.  Once the image has failed, the replica
    stays, whatever renders follow, as long as [src] is the same; a render
    with a different [src] clears the failure, so the new image is shown
    whenever a reference is given. *)
Theorem phone_frame_retries_on_new_src (f : frame) (p : props) (evs : list event) :
  Forall (same_src (src (frame_props f))) evs ->
  src p <> src (frame_props f) ->
  shows_image (mount p) = truthy (src p) /\
  (truthy (src p) = true -> truthy (alt p) = false ->
   view_screen (render p false) = Img (default "" (src p)) "Captura de Zanoo") /\
  shows_image (fold_left step evs (onError f)) = false /\
  shows_image (step (fold_left step evs (onError f)) (Render p)) = truthy (src p).
Proof.
  intros Hevs Hsrc.
  destruct (hidden_while_same_src evs (onError f) (onError_hides f)) as [Hh Hs].
  { now rewrite onError_props. }
  split; [| split; [| split]].
  - rewrite shows_image_eq. cbn. apply andb_true_r.
  - intros Ht Ha. unfold render. cbn [view_screen]. now rewrite Ht, Ha.
  - exact Hh.
  - cbn [step]. unfold rerender.
    destruct (decide (src p = src (frame_props (fold_left step evs (onError f)))))
      as [He | Hne].
    + rewrite Hs, onError_props in He. contradiction.
    + rewrite shows_image_eq. cbn. apply andb_true_r.
Qed.

Lemma phone_frame_retries_on_new_src_witness :
  let f := mount (Props (Some "/shots/inicio-paciente.png") None (Some "Inicio (Paciente)")) in
  let p := Props (Some "/shots/mis-medicos.png") None (Some "Mis médicos") in
  let evs := [Render (Props (Some "/shots/inicio-paciente.png") None None); Error] in
  Forall (same_src (src (frame_props f))) evs /\
  src p <> src (frame_props f) /\
  shows_image (fold_left step evs (onError f)) = false /\
  shows_image (step (fold_left step evs (onError f)) (Render p)) = true.
Proof.
  intros f p evs.
  assert (H1 : Forall (same_src (src (frame_props f))) evs).
  { unfold evs. repeat (constructor; [simpl; auto |]). constructor. }
  assert (H2 : src p <> src (frame_props f)) by discriminate.
  pose proof (phone_frame_retries_on_new_src f p evs H1 H2) as (_ & _ & H3 & H4).
  split; [exact H1 |]. split; [exact H2 |]. split; [exact H3 | exact H4].
Defined.

End PhoneFrameFacts.

Section FrameOnSlider.
Import Slider Landing Shots PhoneFrame.

(** X6: while a slider index is within its list, the previous and next
    buttons always move to a shot with another, non-empty [src], so the
    phone frame of that slider, whatever failure it had recorded, shows the
    image again; an event that leaves the index alone leaves the frame's
    failure as it is. *)
Theorem slider_move_retries_image (sl : slider) (s : page) (f : frame) (p : props) :
  0 <= slider_index sl s < slider_length sl ->
  props_of_slider sl s = Some p ->
  frame_props f = p ->
  (forall ev, ev = click_prev sl \/ ev = click_next sl ->
     exists p', props_of_slider sl (handle ev s) = Some p' /\
                shows_image (rerender p' f) = true) /\
  (forall ev, slider_index sl (handle ev s) = slider_index sl s ->
     props_of_slider sl (handle ev s) = Some p /\
     imgError (rerender p f) = imgError f).
Proof.
  intros Hi Hp Hf. subst p. split.
  - intros ev Hev. destruct sl; cbn [slider_index slider_length] in Hi.
    + assert (Hc : heroIndex s = 0 \/ heroIndex s = 1)
        by (change (Js.length HERO_SHOTS) with 2 in Hi; lia).
      unfold props_of_slider, active_shot in *.
      destruct Hev as [-> | ->]; cbn [click_prev click_next handle];
        destruct Hc as [Hc | Hc]; rewrite Hc in *; cbn in Hp |- *;
        injection Hp as Hfp; eexists; (split; [reflexivity |]);
        unfold rerender; rewrite <- Hfp; reflexivity.
    + assert (Hc : shotIndex s = 0 \/ shotIndex s = 1 \/ shotIndex s = 2)
        by (change (Js.length APP_SHOTS) with 3 in Hi; lia).
      unfold props_of_slider, active_shot in *.
      destruct Hev as [-> | ->]; cbn [click_prev click_next handle];
        destruct Hc as [Hc | [Hc | Hc]]; rewrite Hc in *; cbn in Hp |- *;
        injection Hp as Hfp; eexists; (split; [reflexivity |]);
        unfold rerender; rewrite <- Hfp; reflexivity.
  - intros ev Hev.
    assert (Hsame : props_of_slider sl (handle ev s) = Some (frame_props f)).
    { rewrite <- Hp. unfold props_of_slider, active_shot.
      destruct sl; cbn [slider_index] in Hev; now rewrite Hev. }
    split; [exact Hsame |].
    unfold rerender.
    destruct (decide (src (frame_props f) = src (frame_props f)));
      [reflexivity | contradiction].
Qed.

Lemma slider_move_retries_image_witness :
  let s := handle (ClickShotDot 2) initial_page in
  let p := Props (Some "/shots/metricas-direccion.png") None (Some "Métricas (Dirección)") in
  0 <= slider_index AppSlider s < slider_length AppSlider /\
  props_of_slider AppSlider s = Some p /\
  exists p', props_of_slider AppSlider (handle ClickShotNext s) = Some p' /\
             shows_image (rerender p' (Frame p true)) = true.
Proof.
  intros s p.
  assert (H1 : 0 <= slider_index AppSlider s < slider_length AppSlider)
    by (vm_compute; split; congruence).
  assert (H2 : props_of_slider AppSlider s = Some p) by reflexivity.
  split; [exact H1 |]. split; [exact H2 |].
  exact (proj1 (slider_move_retries_image AppSlider s (Frame p true) p H1 H2 eq_refl)
               ClickShotNext (or_intror eq_refl)).
Defined.

End FrameOnSlider.

(** ** More on the rotations *)

Section RotationExtras.
Import Landing.

Lemma indexOf_absent (d : option string) :
  ~ In d (List.map Some tabs) -> Js.indexOf tabs d = -1.
Proof.
  intros H. unfold Js.indexOf, tabs. cbn [Js.indexOf_from].
  repeat case_decide; try reflexivity; exfalso; apply H; subst; simpl; auto.
Qed.

(** X7: whatever the current tab is, also a value that is none of the
    three labels or [undefined], one tick of the demo interval leaves one
    of the three labels; from a value outside the list it leaves the first
    label, since [indexOf] gives -1. *)
Theorem demo_tick_lands_on_a_tab (s : page) :
  In (demoTab (run_callback DemoTabTick s)) (List.map Some tabs) /\
  (~ In (demoTab s) (List.map Some tabs) ->
   demoTab (run_callback DemoTabTick s) = Some "Recepción"%string).
Proof.
  destruct (In_dec (option_eq_dec (A := string)) (demoTab s) (List.map Some tabs))
    as [Hin | Hnin].
  - split; [apply (demo_tick_index s Hin) | contradiction].
  - assert (H : demoTab (run_callback DemoTabTick s) = Some "Recepción"%string).
    { cbn [run_callback demoTab setDemoTab]. now rewrite (indexOf_absent _ Hnin). }
    split; [rewrite H; simpl; auto | intros _; exact H].
Qed.

(** A tick of one rotation leaves the index of every other rotation,
    both slider indices and the form's flag as they were, and the form's
    revert leaves every rotation and slider index as it was. *)
Theorem rotations_are_independent (r r' : rotation) (sl : slider) (s : page) :
  r <> r' ->
  rotation_index r' (run_callback (rotation_tick r) s) = rotation_index r' s /\
  slider_index sl (run_callback (rotation_tick r) s) = slider_index sl s /\
  formSent (run_callback (rotation_tick r) s) = formSent s /\
  rotation_index r (run_callback FormRevert s) = rotation_index r s /\
  slider_index sl (run_callback FormRevert s) = slider_index sl s.
Proof.
  intros Hne. destruct r, r', sl; try congruence; repeat split.
Qed.

Lemma rotations_are_independent_witness :
  HeroPhrases <> DemoTabs /\
  rotation_index DemoTabs
    (run_callback (rotation_tick HeroPhrases) (mount initial_page)) = 0.
Proof.
  assert (H : HeroPhrases <> DemoTabs) by discriminate.
  split; [exact H |].
  exact (proj1 (rotations_are_independent HeroPhrases DemoTabs HeroSlider
                  (mount initial_page) H)).
Defined.

Lemma ticks_add (r : rotation) (a b : nat) (s : page) :
  ticks r (a + b) s = ticks r a (ticks r b s).
Proof. unfold ticks. induction a as [| a IH]; [reflexivity |]. simpl. now rewrite <- IH. Qed.

(** X8: from a page whose indices are within their lists, as many ticks
    as the list is long bring a rotation back to the item it showed, and
    in between it shows every other item once: the items shown over
    [length] consecutive ticks are pairwise different. *)
Theorem rotation_full_cycle (r : rotation) (s : page) (i j : nat) :
  in_range s ->
  rotation_index r (ticks r (Z.to_nat (rotation_length r)) s) = rotation_index r s /\
  (Z.of_nat i < rotation_length r -> Z.of_nat j < rotation_length r ->
   rotation_index r (ticks r i s) = rotation_index r (ticks r j s) -> i = j).
Proof.
  intros Hs. pose proof (Hs r) as Hr.
  assert (Hl : 0 < rotation_length r) by lia.
  split.
  - rewrite ticks_index by exact Hs. rewrite Z2Nat.id by lia.
    rewrite <- (Z.mul_1_l (rotation_length r)) at 1.
    rewrite Z.mod_add by lia. apply Z.mod_small. exact Hr.
  - intros Hi Hj. rewrite !ticks_index by exact Hs. intros Heq.
    set (L := rotation_length r) in *. set (x := rotation_index r s) in *.
    assert (Hd : (Z.of_nat i - Z.of_nat j) mod L = 0).
    { replace (Z.of_nat i - Z.of_nat j) with ((x + Z.of_nat i) - (x + Z.of_nat j)) by lia.
      rewrite Zminus_mod, Heq, Z.sub_diag. apply Z.mod_0_l. lia. }
    apply Z.mod_divide in Hd; [| lia]. destruct Hd as [k Hk].
    assert (Hk0 : k = 0).
    { destruct (Z.eq_dec k 0) as [| Hne]; [assumption |]. exfalso.
      assert (Hc : 1 <= k \/ k <= -1) by lia.
      destruct Hc; nia. }
    subst k. lia.
Qed.

Lemma rotation_full_cycle_witness :
  in_range (mount initial_page) /\
  rotation_index Quotes (ticks Quotes 3 (mount initial_page)) = 0.
Proof.
  assert (H : in_range (mount initial_page)) by apply mount_in_range.
  split; [exact H |].
  exact (proj1 (rotation_full_cycle Quotes (mount initial_page) 0 0 H)).
Defined.

End RotationExtras.

Section ClockAtAnyTime.
Import Landing.

Variable A : Type.
Variable cell : page -> A.
Variable cb0 : callback.
Variable upd : A -> A.

Hypothesis cell_cb0 : forall s, cell (run_callback cb0 s) = upd (cell s).
Hypothesis cell_other :
  forall cb s, cb <> cb0 -> cell (run_callback cb s) = cell s.
Hypothesis cell_timers : forall ts nx s, cell (setTimers ts nx s) = cell s.
Hypothesis cell_now : forall t s, cell (setNow t s) = cell s.
Hypothesis cell_log : forall cb s, cell (logFired cb s) = cell s.

Lemma elapse_add (a b : nat) (s : page) :
  elapse (a + b) s = elapse b (elapse a s).
Proof. revert s. induction a as [| a IH]; intros s; [reflexivity |]. apply IH. Qed.

(** Between two ticks the cell rests: after [k] whole periods and a part
    of the next, it has been updated [k] times. *)
Lemma elapse_periods_and_part (id p : Z) (k j : nat) (s : page) :
  0 < p -> sole_interval cb0 id p (now s + p) s ->
  Z.of_nat j < p ->
  cell (elapse (k * Z.to_nat p + j) s) = Nat.iter k upd (cell s).
Proof.
  intros Hp Hsole Hj. rewrite elapse_add.
  destruct (elapse_periods A cell cb0 upd cell_cb0 cell_other cell_timers
              cell_now cell_log id p k s Hp Hsole) as [Hc Hs].
  rewrite <- Hc.
  apply (elapse_early A cell cb0 upd cell_cb0 cell_other cell_timers
           cell_now cell_log id p j _ _ Hs).
  rewrite elapse_now. lia.
Qed.

End ClockAtAnyTime.

Section RotationAtAnyTime.
Import Landing.

Lemma elapse_ticks_at (r : rotation) (id : Z) (k j : nat) (s : page) :
  sole_interval (rotation_tick r) id (rotation_period r)
                (now s + rotation_period r) s ->
  Z.of_nat j < rotation_period r ->
  rotation_index r (elapse (k * Z.to_nat (rotation_period r) + j) s)
  = rotation_index r (ticks r k s).
Proof.
  intros Hsole Hj. unfold ticks.
  destruct r; cbn [rotation_index rotation_tick rotation_period] in *.
  - rewrite (elapse_periods_and_part Z heroTextIndex HeroTextTick
               (fun i => Js.rem (i + 1) (Js.length heroPhrases))
               ltac:(reflexivity)
               ltac:(intros cb ? ?; destruct cb; [reflexivity | reflexivity | congruence | reflexivity])
               ltac:(reflexivity) ltac:(reflexivity) ltac:(reflexivity)
               id 3000 k j s ltac:(lia) Hsole Hj).
    rewrite (iter_callback_cell Z heroTextIndex HeroTextTick
               (fun i => Js.rem (i + 1) (Js.length heroPhrases))
               ltac:(reflexivity)).
    reflexivity.
  - f_equal.
    rewrite (elapse_periods_and_part (option string) demoTab DemoTabTick
               (fun d => Js.get tabs (Js.rem (Js.indexOf tabs d + 1) (Js.length tabs)))
               ltac:(reflexivity)
               ltac:(intros cb ? ?; destruct cb; [reflexivity | congruence | reflexivity | reflexivity])
               ltac:(reflexivity) ltac:(reflexivity) ltac:(reflexivity)
               id 4000 k j s ltac:(lia) Hsole Hj).
    rewrite (iter_callback_cell (option string) demoTab DemoTabTick
               (fun d => Js.get tabs (Js.rem (Js.indexOf tabs d + 1) (Js.length tabs)))
               ltac:(reflexivity)).
    reflexivity.
  - rewrite (elapse_periods_and_part Z quoteIndex QuoteTick
               (fun i => Js.rem (i + 1) (Js.length quotes))
               ltac:(reflexivity)
               ltac:(intros cb ? ?; destruct cb; [congruence | reflexivity | reflexivity | reflexivity])
               ltac:(reflexivity) ltac:(reflexivity) ltac:(reflexivity)
               id 5000 k j s ltac:(lia) Hsole Hj).
    rewrite (iter_callback_cell Z quoteIndex QuoteTick
               (fun i => Js.rem (i + 1) (Js.length quotes))
               ltac:(reflexivity)).
    reflexivity.
Qed.

(** X9: [t] ms after the mount, with no interaction, every rotation shows
    the item at [(t / period) mod length]: the hero phrase changes every
    3000 ms, the demo tab every 4000 ms and the quote every 5000 ms, each
    at the multiples of its own period and at no other time. *)
Theorem rotation_index_at_time (r : rotation) (t : Z) :
  0 <= t ->
  rotation_index r (wait t (mount initial_page))
  = (t / rotation_period r) mod rotation_length r.
Proof.
  intros Ht. destruct (mount_intervals r) as [id Hsole].
  assert (Hp : 0 < rotation_period r) by (destruct r; reflexivity).
  pose proof (Z.div_mod t (rotation_period r) ltac:(lia)) as Hdm.
  pose proof (Z.mod_pos_bound t (rotation_period r) Hp) as Hm.
  pose proof (Z.div_pos t (rotation_period r) Ht Hp) as Hq.
  unfold wait.
  replace (Z.to_nat t)
    with (Z.to_nat (t / rotation_period r) * Z.to_nat (rotation_period r)
          + Z.to_nat (t mod rotation_period r))%nat by nia.
  rewrite (elapse_ticks_at r id _ _ _ Hsole) by lia.
  rewrite ticks_index by apply mount_in_range.
  rewrite Z2Nat.id by lia. f_equal. destruct r; reflexivity.
Qed.

Lemma rotation_index_at_time_witness :
  0 <= 13999 /\
  rotation_index DemoTabs (wait 13999 (mount initial_page)) = 0 /\
  rotation_index HeroPhrases (wait 13999 (mount initial_page)) = 0 /\
  rotation_index Quotes (wait 13999 (mount initial_page)) = 2.
Proof.
  assert (H : 0 <= 13999) by lia.
  split; [exact H |]. split; [| split].
  - exact (rotation_index_at_time DemoTabs 13999 H).
  - exact (rotation_index_at_time HeroPhrases 13999 H).
  - exact (rotation_index_at_time Quotes 13999 H).
Defined.

End RotationAtAnyTime.

(** ** Teardown *)

Section TeardownFacts.
Import Landing Mounted.

Lemma mount_timers_ok : timers_ok (mount initial_page).
Proof.
  split; try reflexivity.
  - intros id H. vm_compute in H. discriminate H.
  - intros tm Hin. left. simpl in Hin.
    destruct Hin as [<- | [<- | [<- | []]]]; simpl; split; (lia || discriminate).
Qed.

Lemma fire_all_refs (due : list timer) (s : page) :
  quoteInterval (fold_left fire due s) = quoteInterval s /\
  demoInterval (fold_left fire due s) = demoInterval s /\
  heroInterval (fold_left fire due s) = heroInterval s.
Proof.
  revert s. induction due as [| tm due IH]; intros s; simpl; auto.
  destruct (IH (fire s tm)) as (-> & -> & ->).
  unfold fire. destruct (timer_cb tm); repeat split.
Qed.

Lemma tick_ms_timers_ok (s : page) : timers_ok s -> timers_ok (tick_ms s).
Proof.
  intros [Hq Hd Hh Hn Hr Ht].
  assert (Hnext : nextTimerId (tick_ms s) = nextTimerId s).
  { unfold tick_ms. now rewrite (proj1 (proj2 (proj2 (fire_all_frame _ _)))). }
  assert (Href : formTimer (tick_ms s) = formTimer s).
  { unfold tick_ms. now rewrite (proj2 (proj2 (proj2 (fire_all_frame _ _)))). }
  split.
  - unfold tick_ms. now rewrite (proj1 (fire_all_refs _ _)).
  - unfold tick_ms. now rewrite (proj1 (proj2 (fire_all_refs _ _))).
  - unfold tick_ms. now rewrite (proj2 (proj2 (fire_all_refs _ _))).
  - now rewrite Hnext.
  - intros id Hid. rewrite Hnext. apply Hr. now rewrite <- Href.
  - intros tm' Hin'. rewrite Hnext. rewrite tick_ms_timers in Hin'.
    apply list_elem_of_In, list_elem_of_omap in Hin'.
    destruct Hin' as (tm & Hin & Hre). apply list_elem_of_In in Hin.
    specialize (Ht tm Hin). unfold rearm in Hre.
    destruct (is_due (now s + 1) tm).
    + destruct (timer_repeat tm) as [p |] eqn:Hrep; [| discriminate].
      injection Hre as <-. cbn [timer_id timer_cb timer_repeat].
      destruct Ht as [Ht | (_ & Hnone & _)]; [now left | congruence].
    + injection Hre as <-. exact Ht.
Qed.

Lemma elapse_timers_ok (n : nat) (s : page) : timers_ok s -> timers_ok (elapse n s).
Proof.
  revert s. induction n as [| n IH]; intros s Hs; [exact Hs |].
  apply IH. now apply tick_ms_timers_ok.
Qed.

Lemma onSubmit_timers_ok (e : submit_event) (s : page) :
  timers_ok s -> timers_ok (snd (onSubmit e s)).
Proof.
  intros [Hq Hd Hh Hn Hr Ht]. split; cbn; try assumption; try lia.
  - intros id [= <-]. lia.
  - intros tm Hin. apply List.in_app_or in Hin. destruct Hin as [Hin | [<- | []]].
    + destruct (Ht tm Hin) as [Hl | (Hc & Hp & Hb)]; [now left | right].
      repeat split; auto; lia.
    + right. cbn. repeat split; lia.
Qed.

Lemma handle_timers_ok (ev : event) (s : page) :
  live ev -> timers_ok s -> timers_ok (handle ev s).
Proof.
  intros Hev Hs. destruct ev; cbn [handle]; try contradiction;
    try (destruct Hs; split; assumption).
  - unfold submit_form. destruct (formSent s); [exact Hs |].
    destruct (required_present typed); [| exact Hs].
    now apply onSubmit_timers_ok.
  - destruct (formSent s); [| exact Hs]. destruct Hs; split; assumption.
  - now apply elapse_timers_ok.
Qed.

Lemma run_timers_ok (evs : list event) (s : page) :
  Forall live evs -> timers_ok s -> timers_ok (run evs s).
Proof.
  intros Hevs. revert s. unfold run.
  induction Hevs as [| ev evs Hev _ IH]; intros s Hs; simpl; auto.
  apply IH. now apply handle_timers_ok.
Qed.

Lemma clearTimer_In (id : Z) (s : page) (tm : timer) :
  In tm (timers (clearTimer id s)) <-> In tm (timers s) /\ timer_id tm <> id.
Proof.
  unfold clearTimer. cbn [timers setTimers]. rewrite List.filter_In.
  destruct (Z.eqb_spec (timer_id tm) id); simpl; intuition congruence.
Qed.

(** What the teardown leaves in the timer table. *)
Lemma unmount_In (s : page) (tm : timer) :
  timers_ok s ->
  (In tm (timers (unmount s)) <->
   In tm (timers s) /\ 4 <= timer_id tm /\ formTimer s <> Some (timer_id tm)).
Proof.
  intros [Hq Hd Hh Hn Hr Ht]. unfold unmount.
  rewrite Hd. cbn [clearRef].
  change (heroInterval (clearTimer 2 s)) with (heroInterval s). rewrite Hh. cbn [clearRef].
  unfold formTimer_cleanup.
  change (formTimer (clearTimer 3 (clearTimer 2 s))) with (formTimer s).
  destruct (formTimer s) as [id |] eqn:Hft.
  - specialize (Hr id eq_refl).
    destruct (Z.eqb_spec id 0) as [-> | _]; [lia |].
    change (quoteInterval (clearTimer id (clearTimer 3 (clearTimer 2 s))))
      with (quoteInterval s). rewrite Hq. cbn [clearRef].
    rewrite !clearTimer_In. split.
    + intros ((((Hin & H2) & H3) & Hid) & H1). split; [exact Hin |].
      destruct (Ht tm Hin) as [[Hb _] | (_ & _ & Hb)]; split; try lia; congruence.
    + intros (Hin & Hb & Hne). repeat split; auto; try lia. congruence.
  - change (quoteInterval (clearTimer 3 (clearTimer 2 s))) with (quoteInterval s).
    rewrite Hq. cbn [clearRef]. rewrite !clearTimer_In. split.
    + intros (((Hin & H2) & H3) & H1). split; [exact Hin |].
      destruct (Ht tm Hin) as [[Hb _] | (_ & _ & Hb)]; split; try lia; congruence.
    + intros (Hin & Hb & Hne). repeat split; auto; lia.
Qed.

(** X10: however the mounted page has been used, the teardown cancels
    the three intervals and the revert whose id is in the ref: a timer that
    survives it is a one-shot revert scheduled by an earlier submission.
    When no revert is pending at a submission, none survives the teardown
    after it. *)
Theorem teardown_cancels_intervals (evs : list event) (typed : gmap string string) :
  Forall live evs ->
  let s := run evs (mount initial_page) in
  (forall tm, In tm (timers (unmount s)) ->
     In tm (pending_reverts s) /\ timer_repeat tm = None /\
     formTimer s <> Some (timer_id tm)) /\
  (forall r, pending (rotation_tick r) (unmount s) = []) /\
  (pending_reverts s = [] -> formSent s = false ->
   required_present typed = true ->
   timers (unmount (handle (Submit typed) s)) = []).
Proof.
  intros Hevs s.
  assert (Hok : timers_ok s) by (apply run_timers_ok; auto; apply mount_timers_ok).
  assert (Hleft : forall s0, timers_ok s0 -> forall tm, In tm (timers (unmount s0)) ->
            In tm (pending_reverts s0) /\ timer_repeat tm = None /\
            formTimer s0 <> Some (timer_id tm)).
  { intros s0 Hok0 tm Hin. apply (unmount_In s0 tm Hok0) in Hin.
    destruct Hin as (Hin & Hb & Hne).
    destruct (ok_timers s0 Hok0 tm Hin) as [[Hl _] | (Hc & Hp & _)]; [lia |].
    repeat split; auto. apply List.filter_In. split; auto.
    now apply bool_decide_eq_true. }
  split; [apply Hleft, Hok |]. split.
  - intros r. unfold pending.
    destruct (List.filter (runs (rotation_tick r)) (timers (unmount s)))
      as [| tm l] eqn:Hf; [reflexivity |]. exfalso.
    assert (Hin : In tm (List.filter (runs (rotation_tick r)) (timers (unmount s))))
      by (rewrite Hf; now left).
    apply List.filter_In in Hin. destruct Hin as [Hin Hruns].
    apply bool_decide_eq_true in Hruns.
    destruct (Hleft s Hok tm Hin) as (Hp & _ & _).
    apply List.filter_In in Hp. destruct Hp as [_ Hp].
    apply bool_decide_eq_true in Hp. destruct r; cbn in Hruns; congruence.
  - intros Hnone Hform Hreq.
    assert (Hs' : handle (Submit typed) s = snd (onSubmit (SubmitEvent typed false) s)).
    { cbn [handle]. unfold submit_form. now rewrite Hform, Hreq. }
    rewrite Hs'.
    assert (Hok' : timers_ok (snd (onSubmit (SubmitEvent typed false) s)))
      by now apply onSubmit_timers_ok.
    destruct (onSubmit_page (SubmitEvent typed false) s) as (_ & Htimers & Href & _).
    destruct (timers (unmount (snd (onSubmit (SubmitEvent typed false) s))))
      as [| tm l] eqn:Hl; [reflexivity |]. exfalso.
    destruct (Hleft _ Hok' tm) as (Hp & _ & Hne); [rewrite Hl; now left |].
    apply List.filter_In in Hp. destruct Hp as [Hin Hcb].
    rewrite Htimers in Hin. apply List.in_app_or in Hin.
    destruct Hin as [Hin | [<- | []]].
    + assert (Hp : In tm (pending_reverts s)) by (apply List.filter_In; now split).
      rewrite Hnone in Hp. contradiction.
    + apply Hne. now rewrite Href.
Qed.

Lemma teardown_cancels_intervals_witness :
  let evs := [Submit sample_lead; Wait 5000; ClickEnviarOtra; Wait 1000;
              Submit sample_lead; ClickDemoTab "Dirección"] in
  Forall live evs /\
  forall r, pending (rotation_tick r) (unmount (run evs (mount initial_page))) = [].
Proof.
  intros evs.
  assert (H : Forall live evs).
  { unfold evs. repeat (constructor; [simpl; auto |]). constructor. }
  split; [exact H |].
  exact (proj1 (proj2 (teardown_cancels_intervals evs sample_lead H))).
Defined.

End TeardownFacts.

(** ** Repeated clicks on a slider *)

Section SliderCycle.
Import Landing Mounted.

Lemma clicks_succ (ev : event) (n : nat) (s : page) :
  clicks ev (S n) s = handle ev (clicks ev n s).
Proof. reflexivity. Qed.

(** X11: from an index [p] within the list, [n] clicks on the next button
    give [(p + n) mod length] and [n] clicks on the previous button give
    [(p - n) mod length]; as many clicks as there are shots, either way,
    give [p] back. *)
Theorem slider_repeated_clicks (sl : slider) (s : page) (n : nat) :
  0 <= slider_index sl s < slider_length sl ->
  slider_index sl (clicks (click_next sl) n s)
  = (slider_index sl s + Z.of_nat n) mod slider_length sl /\
  slider_index sl (clicks (click_prev sl) n s)
  = (slider_index sl s - Z.of_nat n) mod slider_length sl /\
  slider_index sl (clicks (click_next sl) (Z.to_nat (slider_length sl)) s)
  = slider_index sl s /\
  slider_index sl (clicks (click_prev sl) (Z.to_nat (slider_length sl)) s)
  = slider_index sl s.
Proof.
  intros Hp. pose proof (slider_length_pos sl) as Hl.
  assert (Hnext : forall k, slider_index sl (clicks (click_next sl) k s)
                            = (slider_index sl s + Z.of_nat k) mod slider_length sl).
  { induction k as [| k IH].
    - cbn [clicks Nat.iter nat_rect]. rewrite Z.add_0_r, Z.mod_small; auto.
    - rewrite clicks_succ, click_next_index, IH. unfold Slider.next_update.
      rewrite rem_is_mod.
      + rewrite Z.add_mod_idemp_l by lia. f_equal. lia.
      + pose proof (Z.mod_pos_bound (slider_index sl s + Z.of_nat k)
                      (slider_length sl) Hl). lia.
      + exact Hl. }
  assert (Hprev : forall k, slider_index sl (clicks (click_prev sl) k s)
                            = (slider_index sl s - Z.of_nat k) mod slider_length sl).
  { induction k as [| k IH].
    - cbn [clicks Nat.iter nat_rect]. rewrite Z.sub_0_r, Z.mod_small; auto.
    - rewrite clicks_succ, click_prev_index, IH.
      rewrite prev_update_mod by (apply Z.mod_pos_bound; exact Hl).
      replace ((slider_index sl s - Z.of_nat k) mod slider_length sl
               + slider_length sl - 1)
        with ((slider_index sl s - Z.of_nat k) mod slider_length sl
              + (slider_length sl - 1)) by lia.
      rewrite Z.add_mod_idemp_l by lia.
      replace (slider_index sl s - Z.of_nat k + (slider_length sl - 1))
        with (slider_index sl s - Z.of_nat (S k) + 1 * slider_length sl) by lia.
      now rewrite Z.mod_add by lia. }
  split; [apply Hnext |]. split; [apply Hprev |]. split.
  - rewrite Hnext, Z2Nat.id by lia.
    rewrite <- (Z.mul_1_l (slider_length sl)) at 1.
    rewrite Z.mod_add by lia. now apply Z.mod_small.
  - rewrite Hprev, Z2Nat.id by lia.
    replace (slider_index sl s - slider_length sl)
      with (slider_index sl s + (-1) * slider_length sl) by lia.
    rewrite Z.mod_add by lia. now apply Z.mod_small.
Qed.

Lemma slider_repeated_clicks_witness :
  0 <= slider_index AppSlider (handle (ClickShotDot 1) initial_page)
    < slider_length AppSlider /\
  slider_index AppSlider
    (clicks ClickShotPrev 5 (handle (ClickShotDot 1) initial_page)) = (1 - 5) mod 3.
Proof.
  assert (H : 0 <= slider_index AppSlider (handle (ClickShotDot 1) initial_page)
              < slider_length AppSlider) by (vm_compute; split; congruence).
  split; [exact H |].
  exact (proj1 (proj2 (slider_repeated_clicks AppSlider
                         (handle (ClickShotDot 1) initial_page) 5 H))).
Defined.

End SliderCycle.

(** ** What the counter shows *)

Section CounterDisplay.
Import JsNumber AnimatedCounter CounterReports.

Variable toLocaleString : number -> string.
Variable value : prop_value.
Variable suffix : string.

Local Abbreviation step := (AnimatedCounter.step toLocaleString value suffix).
Local Abbreviation run := (AnimatedCounter.run toLocaleString value suffix).
Local Abbreviation reports_from := (CounterReports.reports_from value).
Local Abbreviation reports := (CounterReports.reports value).
Local Abbreviation tracks := (CounterReports.tracks value).

Lemma tracks_initial : tracks (initial suffix) false false.
Proof. repeat split. discriminate. Qed.

(** One event keeps the agreement, and writes the text exactly when the
    spring reports. *)
Lemma step_tracks (c : counter) (seen moving : bool) (ev : event) :
  tracks c seen moving ->
  match ev with
  | Intersect true =>
      tracks (step c ev) true (if seen then moving else true) /\
      textContent (step c ev) = textContent c
  | Intersect false =>
      tracks (step c ev) seen moving /\
      textContent (step c ev) = textContent c
  | Change latest =>
      tracks (step c ev) seen moving /\
      textContent (step c ev)
      = (if moving then (toLocaleString (floor latest) ++ suffix)%string
         else textContent c)
  | Rest =>
      tracks (step c ev) seen false /\
      textContent (step c ev)
      = (if moving
         then (toLocaleString (floor (numericValue value)) ++ suffix)%string
         else textContent c)
  end.
Proof.
  destruct c as [iv mv an tx st]. intros (Hs & Hm & Ht). cbn in Hs, Hm, Ht.
  subst seen moving.
  destruct ev as [[] | latest |]; cbn.
  - destruct iv; cbn; repeat split; auto.
  - destruct iv; cbn; repeat split; auto.
  - destruct an; cbn; repeat split; auto.
  - destruct an; cbn; repeat split; auto; try discriminate.
    now rewrite Ht.
Qed.

(** The text after a run is what the last report wrote, and the text
    before the run when the spring reported nothing. *)
Lemma text_after (evs : list event) (c : counter) (seen moving : bool) :
  tracks c seen moving ->
  textContent (fold_left step evs c)
  = match last (reports_from seen moving evs) with
    | Some y => (toLocaleString (floor y) ++ suffix)%string
    | None => textContent c
    end.
Proof.
  revert c seen moving.
  induction evs as [| ev evs IH]; intros c seen moving Hc; [reflexivity |].
  pose proof (step_tracks c seen moving ev Hc) as Hstep.
  cbn [fold_left CounterReports.reports_from].
  destruct ev as [[] | latest |]; destruct Hstep as [Hc' Htx].
  - rewrite (IH _ _ _ Hc'), Htx. reflexivity.
  - rewrite (IH _ _ _ Hc'), Htx. reflexivity.
  - rewrite (IH _ _ _ Hc'), Htx, last_app.
    destruct (last (reports_from seen moving evs)); [reflexivity |].
    now destruct moving.
  - rewrite (IH _ _ _ Hc'), Htx, last_app.
    destruct (last (reports_from seen false evs)); [reflexivity |].
    now destruct moving.
Qed.

(** A spring still moving at the end of the events reports the numeric
    value when it then comes to rest. *)
Lemma reports_then_rest (evs : list event) (c : counter) (seen moving : bool) :
  tracks c seen moving ->
  animating (fold_left step evs c) = true ->
  reports_from seen moving (evs ++ [Rest])
  = reports_from seen moving evs ++ [numericValue value].
Proof.
  revert c seen moving.
  induction evs as [| ev evs IH]; intros c seen moving Hc Hmov.
  - destruct Hc as (_ & Hm & _). cbn in Hmov. rewrite Hmov in Hm. subst moving.
    reflexivity.
  - pose proof (step_tracks c seen moving ev Hc) as Hstep.
    cbn [fold_left] in Hmov. cbn [List.app CounterReports.reports_from].
    destruct ev as [[] | latest |]; destruct Hstep as [Hc' _].
    + exact (IH _ _ _ Hc' Hmov).
    + exact (IH _ _ _ Hc' Hmov).
    + rewrite (IH _ _ _ Hc' Hmov). now rewrite app_assoc.
    + rewrite (IH _ _ _ Hc' Hmov). now rewrite app_assoc.
Qed.

End CounterDisplay.

Section CounterDisplayTheorem.
Import JsNumber AnimatedCounter CounterReports.

(** X12: at every point of every run the span reads the rendered "0"
    followed by the suffix if the spring has reported nothing yet, and
    otherwise the formatted floor of the last value the spring reported,
    followed by the suffix.  When the moving spring comes to rest, its last
    report is the numeric value, so the span then reads the floor of the
    target: a fractional target such as "4.5" is shown rounded down, as 4. *)
Theorem counter_text_is_floored
        (toLocaleString : number -> string) (value : prop_value) (suffix : string)
        (evs : list event) :
  textContent (run toLocaleString value suffix evs)
  = shown toLocaleString suffix (last (reports value evs)) /\
  (animating (run toLocaleString value suffix evs) = true ->
   last (reports value (evs ++ [Rest])) = Some (numericValue value) /\
   textContent (run toLocaleString value suffix (evs ++ [Rest]))
   = (toLocaleString (floor (numericValue value)) ++ suffix)%string) /\
  floor (numericValue (VString "4.5")) = of_Z 4.
Proof.
  pose proof (tracks_initial value suffix) as H0.
  split; [| split].
  - unfold run, reports, shown.
    rewrite (text_after toLocaleString value suffix evs _ _ _ H0).
    now destruct (last _).
  - intros Hmov.
    assert (Hlast : last (reports value (evs ++ [Rest])) = Some (numericValue value)).
    { unfold reports.
      rewrite (reports_then_rest toLocaleString value suffix evs _ _ _ H0 Hmov).
      now rewrite last_snoc. }
    split; [exact Hlast |].
    unfold run.
    rewrite (text_after toLocaleString value suffix (evs ++ [Rest]) _ _ _ H0).
    fold (reports value (evs ++ [Rest])). now rewrite Hlast.
  - vm_compute. reflexivity.
Qed.

Lemma counter_text_is_floored_witness :
  let shows := fun x : number =>
                 match x with
                 | Finite q => if Qeq_bool q (4 # 1) then "4"%string else "?"%string
                 | _ => "?"%string
                 end in
  let evs := [Intersect true; Change (Finite (5 # 2))] in
  animating (run shows (VString "4.5") "%" evs) = true /\
  textContent (run shows (VString "4.5") "%" (evs ++ [Rest]))
  = (shows (floor (numericValue (VString "4.5"))) ++ "%")%string /\
  (shows (floor (numericValue (VString "4.5"))) ++ "%")%string = "4%"%string.
Proof.
  intros shows evs.
  assert (H : animating (run shows (VString "4.5") "%" evs) = true)
    by (vm_compute; reflexivity).
  split; [exact H |]. split; [| vm_compute; reflexivity].
  exact (proj2 (proj1 (proj2 (counter_text_is_floored
                                shows (VString "4.5") "%" evs)) H)).
Defined.

End CounterDisplayTheorem.

(** ** The sign of the extracted number *)

Section NumericPart.
Import JsNumber AnimatedCounter.

Local Abbreviation numeric := (fun c => (is_digit c || is_dot c)%bool).





End NumericPart.

(** ** The seeding script *)

Section SeedFacts.
Import Seed.

Lemma is_file_false (p : string) (w : world) :
  files w !! p = None -> is_file p w = false.
Proof.
  intros H. unfold is_file. apply bool_decide_eq_false. rewrite H.
  intros [x Hx]. discriminate Hx.
Qed.

Lemma is_file_true (p : string) (w : world) :
  is_file p w = true -> is_Some (files w !! p).
Proof. unfold is_file. apply bool_decide_eq_true. Qed.

(** A directory that is already there is left alone. *)
Lemma ensure_dir_present (d : string) (w : world) :
  d ∈ dirs w -> ensure_dir d w = inl (tt, w).
Proof.
  intros Hd. unfold ensure_dir, bind, existsSync, is_dir.
  rewrite (bool_decide_eq_true_2 _ Hd). now rewrite orb_true_r.
Qed.

Lemma ensure_dir_ok (d : string) (w : world) :
  d <> "."%string -> In d (ancestors d) ->
  (forall a, In a (ancestors d) -> files w !! a = None) ->
  exists w',
    ensure_dir d w = inl (tt, w') /\
    files w' = files w /\ stdout w' = stdout w /\
    d ∈ dirs w' /\
    (forall x, (x ∈ dirs w') <-> ((x ∈ dirs w) \/ ((d ∉ dirs w) /\ In x (ancestors d)))).
Proof.
  intros Hdot Hself Hfree.
  destruct (decide (d ∈ dirs w)) as [Hd | Hd].
  - exists w. rewrite ensure_dir_present by exact Hd.
    repeat split; auto. intros [H | [H _]]; [exact H | contradiction].
  - unfold ensure_dir, bind, existsSync, is_dir.
    apply String.eqb_neq in Hdot. rewrite Hdot.
    rewrite (bool_decide_eq_false_2 _ Hd).
    rewrite (is_file_false d w (Hfree d Hself)). cbn [orb negb].
    unfold mkdirSync_recursive. rewrite (is_file_false d w (Hfree d Hself)).
    assert (Hnone : existsb (fun a => is_file a w) (ancestors d) = false).
    { apply not_true_is_false. intros Hex. apply List.existsb_exists in Hex.
      destruct Hex as (a & Ha & Hf). now rewrite (is_file_false a w (Hfree a Ha)) in Hf. }
    rewrite Hnone. eexists. split; [reflexivity |]. cbn [files stdout dirs].
    repeat split; auto.
    + rewrite elem_of_union, elem_of_list_to_set, list_elem_of_In. now left.
    + rewrite elem_of_union, elem_of_list_to_set, list_elem_of_In.
      intros [Hx | Hx]; [right; now split | now left].
    + rewrite elem_of_union, elem_of_list_to_set, list_elem_of_In.
      intros [Hx | [_ Hx]]; [now right | now left].
Qed.

Lemma ensure_dirs_ok (ds : list string) (w : world) :
  (forall d, In d ds -> d <> "."%string /\ In d (ancestors d)) ->
  (forall d a, In d ds -> In a (ancestors d) -> files w !! a = None) ->
  exists w',
    forEach ds ensure_dir w = inl (tt, w') /\
    files w' = files w /\ stdout w' = stdout w /\
    (forall d, In d ds -> d ∈ dirs w') /\
    (forall x, x ∈ dirs w -> x ∈ dirs w') /\
    (forall x, x ∈ dirs w' -> x ∈ dirs w \/ exists d, In d ds /\ In x (ancestors d)).
Proof.
  revert w. induction ds as [| d ds IH]; intros w Hds Hfree.
  - exists w. repeat split; auto. intros ? [].
  - destruct (ensure_dir_ok d w) as (w1 & He & Hf1 & Ho1 & Hd1 & Hx1).
    + apply Hds. now left.
    + apply Hds. now left.
    + intros a Ha. apply (Hfree d a); auto. now left.
    + destruct (IH w1) as (w' & He' & Hf' & Ho' & Hd' & Hsub & Hsup).
      * intros d0 Hd0. apply Hds. now right.
      * intros d0 a Hd0 Ha. rewrite Hf1. apply (Hfree d0 a); auto. now right.
      * exists w'. cbn [forEach]. unfold bind at 1. rewrite He.
        split; [exact He' |]. split; [congruence |]. split; [congruence |].
        split; [| split].
        -- intros d0 [<- | Hd0]; [apply Hsub, Hd1 | now apply Hd'].
        -- intros x Hx. apply Hsub, Hx1. now left.
        -- intros x Hx. apply Hsup in Hx. destruct Hx as [Hx | (d0 & Hd0 & Ha)].
           ++ apply Hx1 in Hx. destruct Hx as [Hx | [_ Hx]]; [now left |].
              right. exists d. split; [now left | exact Hx].
           ++ right. exists d0. split; [now right | exact Ha].
Qed.

Lemma create_file_ok (f : string) (w : world) :
  files w !! dirname f = None ->
  is_dir (dirname f) w = true ->
  is_dir f w = false ->
  create_file f w
  = inl (tt, World (dirs w) (<[f := content_for f]> (files w))
                   (stdout w ++ [("Created " ++ f)%string])).
Proof.
  intros Hpf Hpd Hfd. unfold create_file, bind, writeFileSync.
  now rewrite (is_file_false _ _ Hpf), Hpd, Hfd.
Qed.

Lemma create_files_ok (fs : list string) (w : world) :
  (forall f, In f fs -> files w !! dirname f = None) ->
  (forall f, In f fs -> is_dir (dirname f) w = true) ->
  (forall f, In f fs -> is_dir f w = false) ->
  (forall f g, In f fs -> In g fs -> dirname f <> g) ->
  forEach fs create_file w
  = inl (tt, World (dirs w)
                   (fold_left (fun m f => <[f := content_for f]> m) fs (files w))
                   (stdout w ++ List.map (fun f => ("Created " ++ f)%string) fs)).
Proof.
  revert w. induction fs as [| f fs IH]; intros w Hpf Hpd Hfd Hne.
  - cbn. rewrite app_nil_r. now destruct w.
  - cbn [forEach]. unfold bind at 1.
    rewrite create_file_ok by (try apply Hpf; try apply Hpd; try apply Hfd; now left).
    rewrite IH.
    + cbn [dirs files stdout fold_left List.map]. now rewrite <- app_assoc.
    + intros g Hg. cbn [files]. rewrite lookup_insert_ne.
      * apply Hpf. now right.
      * intros Heq. apply (Hne g f); [now right | now left | congruence].
    + intros g Hg. apply (Hpd g). now right.
    + intros g Hg. apply (Hfd g). now right.
    + intros g h Hg Hh. apply Hne; now right.
Qed.

Lemma fold_insert_other (fs : list string) (m : gmap string buffer) (p : string) :
  ~ In p fs ->
  fold_left (fun m f => <[f := content_for f]> m) fs m !! p = m !! p.
Proof.
  revert m. induction fs as [| f fs IH]; intros m Hp; [reflexivity |].
  cbn [fold_left]. rewrite IH by (intros H; apply Hp; now right).
  apply lookup_insert_ne. intros ->. apply Hp. now left.
Qed.

Lemma fold_insert_written (fs : list string) (m : gmap string buffer) (p : string) :
  In p fs ->
  fold_left (fun m f => <[f := content_for f]> m) fs m !! p = Some (content_for p).
Proof.
  revert m. induction fs as [| f fs IH]; intros m Hp; [contradiction |].
  cbn [fold_left].
  destruct (In_dec string_dec p fs) as [Hin | Hnin]; [now apply IH |].
  destruct Hp as [-> | Hp]; [| contradiction].
  rewrite fold_insert_other by exact Hnin. apply lookup_insert_eq.
Qed.

(** What the lists of the script satisfy, by inspection. *)
Lemma seed_lists :
  (forall d, In d seed_dirs -> d <> "."%string /\ In d (ancestors d)) /\
  (forall f, In f seed_files -> In (dirname f) seed_dirs) /\
  (forall f d a, In f seed_files -> In d seed_dirs -> In a (ancestors d) -> f <> a) /\
  (forall f, In f seed_files -> f <> "."%string).
Proof.
  split; [| split; [| split]].
  - intros d Hd. simpl in Hd. destruct Hd as [<- | [<- | [<- | []]]];
      (split; [discriminate | vm_compute; auto]).
  - intros f Hf. simpl in Hf.
    destruct Hf as [<- | [<- | [<- | [<- | [<- | [<- | [<- | [<- | []]]]]]]]];
      vm_compute; auto.
  - intros f d a Hf Hd Ha. simpl in Hf, Hd.
    destruct Hd as [<- | [<- | [<- | []]]]; vm_compute in Ha;
      destruct Ha as [<- | [<- | []]];
      destruct Hf as [<- | [<- | [<- | [<- | [<- | [<- | [<- | [<- | []]]]]]]]];
      discriminate.
  - intros f Hf. simpl in Hf.
    destruct Hf as [<- | [<- | [<- | [<- | [<- | [<- | [<- | [<- | []]]]]]]]];
      discriminate.
Qed.

(** The worlds on which the script is not in anyone's way: none of its
    directories, nor [public], is a file, and none of its files is a
    directory. *)
Local Abbreviation clear_for_seed w :=
  ((forall d a, In d seed_dirs -> In a (ancestors d) -> files w !! a = None) /\
   (forall f, In f seed_files -> f ∉ dirs w)).

Lemma seed_runs (w : world) :
  clear_for_seed w ->
  exists ds,
    seed w
    = inl (tt, World ds
                 (fold_left (fun m f => <[f := content_for f]> m) seed_files (files w))
                 (stdout w ++ List.map (fun f => ("Created " ++ f)%string) seed_files)) /\
    (forall d, In d seed_dirs -> d ∈ ds) /\
    (forall x, x ∈ dirs w -> x ∈ ds) /\
    (forall x, x ∈ ds -> x ∈ dirs w \/ exists d, In d seed_dirs /\ In x (ancestors d)) /\
    (Forall (fun d => d ∈ dirs w) seed_dirs -> ds = dirs w).
Proof.
  intros [Hfree Hnd].
  destruct seed_lists as (Hdirs & Hparent & Hdisj & Hnodot).
  destruct (ensure_dirs_ok seed_dirs w Hdirs Hfree)
    as (w1 & He & Hf1 & Ho1 & Hd1 & Hsub & Hsup).
  exists (dirs w1). unfold seed, bind at 1. rewrite He.
  rewrite create_files_ok.
  - rewrite Hf1, Ho1. split; [reflexivity |]. split; [exact Hd1 |].
    split; [exact Hsub |]. split; [exact Hsup |].
    intros Hall. clear - Hall He.
    assert (Hid : forEach seed_dirs ensure_dir w = inl (tt, w)).
    { revert Hall. generalize seed_dirs. intros l Hall.
      induction Hall as [| d l Hd _ IH]; [reflexivity |].
      cbn [forEach]. unfold bind at 1. now rewrite ensure_dir_present. }
    rewrite Hid in He. now injection He as <-.
  - intros f Hf. rewrite Hf1.
    destruct (Hdirs (dirname f) (Hparent f Hf)) as [_ Hself].
    apply (Hfree (dirname f) (dirname f)); auto.
  - intros f Hf. unfold is_dir.
    rewrite (bool_decide_eq_true_2 _ (Hd1 _ (Hparent f Hf))). apply orb_true_r.
  - intros f Hf. unfold is_dir.
    pose proof (Hnodot f Hf) as Hn. apply String.eqb_neq in Hn.
    rewrite Hn. cbn [orb].
    apply bool_decide_eq_false. intros Hx. apply Hsup in Hx.
    destruct Hx as [Hx | (d & Hd & Ha)]; [now apply (Hnd f Hf) |].
    now apply (Hdisj f d f Hf Hd Ha).
  - intros f g Hf Hg Heq.
    destruct (Hdirs (dirname f) (Hparent f Hf)) as [_ Hself].
    apply (Hdisj g (dirname f) (dirname f) Hg (Hparent f Hf) Hself). congruence.
Qed.

(** X14: on a file system where none of the script's directories, nor
    [public], is a file and none of its files is a directory, the script
    runs to its end without throwing.  Afterwards its three directories
    exist, each of its eight files holds the JPEG placeholder when its
    extension is ".jpg" or ".jpeg" and the PNG placeholder otherwise, every
    other file is as it was, no directory has been removed, and one
    "Created" line per file has been printed, in order. *)
Theorem seed_creates_placeholders (w : world) (p : string) :
  (forall d a, In d seed_dirs -> In a (ancestors d) -> files w !! a = None) ->
  (forall f, In f seed_files -> f ∉ dirs w) ->
  exists w',
    seed w = inl (tt, w') /\
    (forall d, In d seed_dirs -> d ∈ dirs w') /\
    (forall x, x ∈ dirs w -> x ∈ dirs w') /\
    (In p seed_files -> files w' !! p = Some (content_for p)) /\
    (In p seed_files ->
     content_for p
     = if (String.eqb (extname p) ".jpg" || String.eqb (extname p) ".jpeg")%bool
       then jpgBuffer else pngBuffer) /\
    (~ In p seed_files -> files w' !! p = files w !! p) /\
    stdout w'
    = stdout w ++ List.map (fun f => ("Created " ++ f)%string) seed_files.
Proof.
  intros Hfree Hnd.
  destruct (seed_runs w (conj Hfree Hnd)) as (ds & Hrun & Hd & Hsub & _ & _).
  eexists. split; [exact Hrun |]. cbn [dirs files stdout].
  split; [exact Hd |]. split; [exact Hsub |].
  split; [| split; [| split]].
  - intros Hp. now apply fold_insert_written.
  - reflexivity.
  - intros Hp. now apply fold_insert_other.
  - reflexivity.
Qed.

Lemma seed_creates_placeholders_witness :
  let w := World ∅ ∅ [] in
  (forall d a, In d seed_dirs -> In a (ancestors d) -> files w !! a = None) /\
  (forall f, In f seed_files -> f ∉ dirs w) /\
  exists w', seed w = inl (tt, w') /\
             files w' !! "public/photos/fila-turnos-duplicados.jpg"%string
             = Some jpgBuffer.
Proof.
  intros w.
  assert (H1 : forall d a, In d seed_dirs -> In a (ancestors d) -> files w !! a = None)
    by (intros; apply lookup_empty).
  assert (H2 : forall f, In f seed_files -> f ∉ dirs w)
    by (intros f _; apply not_elem_of_empty).
  split; [exact H1 |]. split; [exact H2 |].
  destruct (seed_creates_placeholders w "public/photos/fila-turnos-duplicados.jpg" H1 H2)
    as (w' & Hrun & _ & _ & Hp & _).
  exists w'. split; [exact Hrun |]. apply Hp. simpl. auto 10.
Defined.

End SeedFacts.

Section SeedAgain.
Import Seed.

(** X15: run a second time, the script throws nothing and leaves the
    directories and every file exactly as its first run left them; only the
    "Created" lines are printed again. *)
Theorem seed_twice_is_seed_once (w w1 : world) :
  (forall d a, In d seed_dirs -> In a (ancestors d) -> files w !! a = None) ->
  (forall f, In f seed_files -> f ∉ dirs w) ->
  seed w = inl (tt, w1) ->
  seed w1
  = inl (tt, World (dirs w1) (files w1)
                   (stdout w1 ++ List.map (fun f => ("Created " ++ f)%string) seed_files)).
Proof.
  intros Hfree Hnd Hrun.
  destruct seed_lists as (Hdirs & Hparent & Hdisj & Hnodot).
  destruct (seed_runs w (conj Hfree Hnd)) as (ds & Hrun' & Hd & Hsub & Hsup & _).
  set (fs1 := fold_left (fun m f => <[f := content_for f]> m) seed_files (files w)) in *.
  set (out1 := stdout w ++ List.map (fun f => ("Created " ++ f)%string) seed_files) in *.
  assert (Hw1 : w1 = World ds fs1 out1) by congruence.
  clear Hrun Hrun'. subst w1. cbn [dirs files stdout].
  set (w1 := World ds fs1 out1).
  assert (Hclear : (forall d a, In d seed_dirs -> In a (ancestors d) -> files w1 !! a = None)
                   /\ (forall f, In f seed_files -> f ∉ dirs w1)).
  { split.
    - intros d a Hdd Ha. cbn [files w1]. unfold fs1. rewrite fold_insert_other.
      + now apply (Hfree d a).
      + intros Hin. now apply (Hdisj a d a Hin Hdd Ha).
    - intros f Hf Hx. cbn [dirs w1] in Hx. apply Hsup in Hx.
      destruct Hx as [Hx | (d & Hdd & Ha)]; [now apply (Hnd f Hf) |].
      now apply (Hdisj f d f Hf Hdd Ha). }
  destruct (seed_runs w1 Hclear) as (ds2 & Hrun2 & _ & _ & _ & Hsame).
  rewrite Hrun2. f_equal. f_equal. f_equal.
  - apply Hsame. apply List.Forall_forall. intros d Hdd. cbn [dirs w1]. now apply Hd.
  - cbn [files w1]. apply map_eq. intros p.
    destruct (In_dec string_dec p seed_files) as [Hin | Hnin].
    + rewrite fold_insert_written by exact Hin. unfold fs1.
      now rewrite fold_insert_written.
    + now rewrite fold_insert_other.
Qed.

Lemma seed_twice_is_seed_once_witness :
  let w := World ∅ ∅ [] in
  (forall d a, In d seed_dirs -> In a (ancestors d) -> files w !! a = None) /\
  (forall f, In f seed_files -> f ∉ dirs w) /\
  exists w1, seed w = inl (tt, w1) /\
    seed w1
    = inl (tt, World (dirs w1) (files w1)
                     (stdout w1 ++ List.map (fun f => ("Created " ++ f)%string) seed_files)).
Proof.
  intros w.
  assert (H1 : forall d a, In d seed_dirs -> In a (ancestors d) -> files w !! a = None)
    by (intros; apply lookup_empty).
  assert (H2 : forall f, In f seed_files -> f ∉ dirs w)
    by (intros f _; apply not_elem_of_empty).
  split; [exact H1 |]. split; [exact H2 |].
  destruct (seed_creates_placeholders w "" H1 H2) as (w1 & Hrun & _).
  exists w1. split; [exact Hrun |].
  exact (seed_twice_is_seed_once w w1 H1 H2 Hrun).
Defined.

(** X16: when [public] is a regular file and the first directory of the
    script does not exist, the script throws at its first [mkdirSync] and
    has changed nothing: no directory, no file, no output. *)
Theorem seed_stops_when_public_is_a_file (w : world) (content : buffer) :
  files w !! "public"%string = Some content ->
  "public/brand"%string ∉ dirs w ->
  files w !! "public/brand"%string = None ->
  seed w = inr (ENOTDIR, w).
Proof.
  intros Hpub Hnd Hnf.
  assert (Hex : existsb (fun a => is_file a w) (ancestors "public/brand") = true).
  { change (ancestors "public/brand") with ["public"%string; "public/brand"%string].
    cbn [existsb]. unfold is_file at 1.
    rewrite bool_decide_eq_true_2; [reflexivity |]. rewrite Hpub. eauto. }
  assert (Hmk : mkdirSync_recursive "public/brand" w = inr (ENOTDIR, w)).
  { unfold mkdirSync_recursive. now rewrite (is_file_false _ _ Hnf), Hex. }
  assert (Hdir : ensure_dir "public/brand" w = inr (ENOTDIR, w)).
  { unfold ensure_dir, bind, existsSync.
    replace (is_dir "public/brand" w) with false.
    - now rewrite (is_file_false _ _ Hnf).
    - unfold is_dir. now rewrite (bool_decide_eq_false_2 _ Hnd). }
  unfold seed, seed_dirs. cbn [forEach]. unfold bind. now rewrite Hdir.
Qed.

Lemma seed_stops_when_public_is_a_file_witness :
  let w := World ∅ {[ "public"%string := pngBuffer ]} [] in
  files w !! "public"%string = Some pngBuffer /\
  ("public/brand"%string ∉ dirs w) /\
  files w !! "public/brand"%string = None /\
  seed w = inr (ENOTDIR, w).
Proof.
  intros w.
  assert (H1 : files w !! "public"%string = Some pngBuffer) by reflexivity.
  assert (H2 : "public/brand"%string ∉ dirs w) by apply not_elem_of_empty.
  assert (H3 : files w !! "public/brand"%string = None) by reflexivity.
  split; [exact H1 |]. split; [exact H2 |]. split; [exact H3 |].
  exact (seed_stops_when_public_is_a_file w pngBuffer H1 H2 H3).
Defined.

(** X18: every screenshot of the two sliders and every photo of the
    problem tiles is served from a file the script creates, so after the
    script has run each of them resolves to a placeholder; none of the
    three brand logos the page loads is among the script's files (it
    creates [zanoo-logo.png], which nothing loads), so the logos are as they
    were before the script. *)
Theorem seed_covers_shots_and_photos (w : world) (url : string) :
  (forall d a, In d seed_dirs -> In a (ancestors d) -> files w !! a = None) ->
  (forall f, In f seed_files -> f ∉ dirs w) ->
  exists w',
    seed w = inl (tt, w') /\
    (In url (shot_srcs ++ PROBLEM_TILES_imageSrc) ->
     In (served_from url) seed_files /\
     files w' !! served_from url = Some (content_for (served_from url))) /\
    (In url brand_logos ->
     ~ In (served_from url) seed_files /\
     files w' !! served_from url = files w !! served_from url) /\
    (forall f, In f seed_files ->
       f = "public/brand/zanoo-logo.png"%string \/
       exists u, In u (shot_srcs ++ PROBLEM_TILES_imageSrc) /\ f = served_from u).
Proof.
  intros Hfree Hnd.
  destruct (seed_creates_placeholders w (served_from url) Hfree Hnd)
    as (w' & Hrun & _ & _ & Hin & _ & Hout & _).
  exists w'. split; [exact Hrun |]. split; [| split].
  - intros Hu.
    assert (Hs : In (served_from url) seed_files).
    { vm_compute in Hu.
      destruct Hu as [<- | [<- | [<- | [<- | [<- | [<- | [<- | [<- | []]]]]]]]];
        vm_compute; auto 10. }
    split; [exact Hs | now apply Hin].
  - intros Hu.
    assert (Hs : ~ In (served_from url) seed_files).
    { simpl in Hu. destruct Hu as [<- | [<- | [<- | []]]]; vm_compute;
        intuition discriminate. }
    split; [exact Hs | now apply Hout].
  - intros f Hf. simpl in Hf.
    destruct Hf as [<- | [<- | [<- | [<- | [<- | [<- | [<- | [<- | []]]]]]]]];
      [now left | right ..]; eexists; (split; [| reflexivity]); vm_compute; auto 10.
Qed.

Lemma seed_covers_shots_and_photos_witness :
  let w := World ∅ ∅ [] in
  (forall d a, In d seed_dirs -> In a (ancestors d) -> files w !! a = None) /\
  (forall f, In f seed_files -> f ∉ dirs w) /\
  exists w', seed w = inl (tt, w') /\
             files w' !! served_from "/brand/zanoo-logo-color-v2.png" = None.
Proof.
  intros w.
  assert (H1 : forall d a, In d seed_dirs -> In a (ancestors d) -> files w !! a = None)
    by (intros; apply lookup_empty).
  assert (H2 : forall f, In f seed_files -> f ∉ dirs w)
    by (intros f _; apply not_elem_of_empty).
  split; [exact H1 |]. split; [exact H2 |].
  destruct (seed_covers_shots_and_photos w "/brand/zanoo-logo-color-v2.png" H1 H2)
    as (w' & Hrun & _ & Hlogo & _).
  exists w'. split; [exact Hrun |].
  rewrite (proj2 (Hlogo ltac:(simpl; auto))). apply lookup_empty.
Defined.

End SeedAgain.
